(** * Veritas: the client-side image-authenticity heuristic engine

    A shallow embedding of [src/lib/deepfakeDetector.ts] (the four analyzers,
    their numeric helpers and the score combiner) and the properties its
    specification states about it.

    JavaScript numbers are IEEE 754 binary64 values, and several properties of
    the engine depend on the rounding of binary64 arithmetic (the mean of a
    constant list is not always that constant).  Numbers are therefore
    modelled by Rocq's primitive binary64 floats, whose operations are
    specified by [FloatAxioms] against [SpecFloat]; integer loop counters and
    array indices are modelled by [Z]. *)

From Stdlib Require Import ZArith List Bool Lia Floats.
From Stdlib Require Uint63.
From Stdlib Require Import Strings.Byte.
Import ListNotations.

Set Warnings "-inexact-float".

Local Open Scope float_scope.

(** ** ECMAScript number primitives *)

Module JS.

(** [ToNumber(undefined)]: reading an array out of range yields [undefined],
    which every arithmetic use in the engine coerces to [NaN]. *)
Definition undefined_num : float := nan.

(** A non-negative integer as a Number (exact below [2^53]). *)
Definition float_of_Z (n : Z) : float :=
  match n with
  | Z0 => 0
  | Zpos _ => of_uint63 (Uint63.of_Z n)
  | Zneg p => - of_uint63 (Uint63.of_Z (Zpos p))
  end.

Definition float_of_nat (n : nat) : float := float_of_Z (Z.of_nat n).

(** [a < b] and [a > b] on Numbers; both are false when an operand is NaN. *)
Definition num_lt (a b : float) : bool := a <? b.
Definition num_gt (a b : float) : bool := b <? a.

(** [a === b] on Numbers. *)
Definition strict_eq (a b : float) : bool := a =? b.

Definition Math_abs (x : float) : float := abs x.
Definition Math_sqrt (x : float) : float := sqrt x.

(** [Math.pow(x, 2)]. *)
Definition Math_pow2 (x : float) : float := x * x.

(** [Math.min] and [Math.max] of two Numbers: NaN if either is NaN, and
    [-0] is smaller than [+0]. *)
Definition Math_min (a b : float) : float :=
  if is_nan a || is_nan b then nan
  else if a <? b then a
  else if b <? a then b
  else if get_sign a then a else b.

Definition Math_max (a b : float) : float :=
  if is_nan a || is_nan b then nan
  else if a <? b then b
  else if b <? a then a
  else if get_sign a then b else a.

(** [Math.round]: the integer closest to [x], ties towards [+Infinity];
    NaN, the infinities and the zeros are returned unchanged, and a value
    in [[-0.5, -0]] rounds to [-0].  For [x = ±m·2^e] with [e < 0] the
    integer is [floor (x + 1/2) = floor ((±2m + 2^-e) / 2^(1-e))]. *)
Definition round_to_Z (s : bool) (m : positive) (e : Z) : Z :=
  ((2 * (if s then Zneg m else Zpos m) + 2 ^ (- e)) / 2 ^ (1 - e))%Z.

Definition Math_round (x : float) : float :=
  match Prim2SF x with
  | S754_finite s m e =>
      if (0 <=? e)%Z then x
      else
        let n := round_to_Z s m e in
        if (n =? 0)%Z then (if s then neg_zero else zero) else float_of_Z n
  | _ => x
  end.

(** [Array.prototype.reduce] without an initial value: it throws a
    [TypeError] on an empty array ([None]) and otherwise folds from the
    first element. *)
Definition reduce1 (f : float -> float -> float) (a : list float) : option float :=
  match a with
  | [] => None
  | x :: rest => Some (fold_left f rest x)
  end.

(** [a[i]] for an integer index, coerced to a Number. *)
Definition aget (a : list float) (i : Z) : float :=
  if (i <? 0)%Z then undefined_num else nth (Z.to_nat i) a undefined_num.

(** The values taken by [i] in [for (i = start; i < bound; i += step)],
    for a positive [step]. *)
Fixpoint loop_values (fuel : nat) (i bound step : Z) : list Z :=
  match fuel with
  | O => []
  | S fuel' =>
      if (i <? bound)%Z then i :: loop_values fuel' (i + step) bound step
      else []
  end.

Definition for_range (start bound step : Z) : list Z :=
  loop_values (Z.to_nat (bound - start)) start bound step.

End JS.

Import JS.

(** ** Data model *)

(** A [Uint8ClampedArray] of RGBA quadruples. *)
Definition PixelBuffer := list byte.

Definition byte_num (b : byte) : float :=
  of_uint63 (Uint63.of_Z (Z.of_N (Byte.to_N b))).

Inductive RiskLevel := low | medium | high.

Record Details := {
  frequencyAnomaly : float;
  compressionArtifacts : float;
  textureInconsistency : float;
  colorAnomalies : float
}.

Record DeepfakeAnalysisResult := {
  isFake : bool;
  confidence : float;
  riskLevel : RiskLevel;
  details : Details
}.

(** ** Numeric helpers *)

(** [calculateVariance], with the exception of [reduce] made explicit. *)
Definition calculateVariance_exc (values : list float) : option float :=
  if (length values =? 0)%nat then Some 0
  else
    match reduce1 add values with
    | None => None
    | Some total =>
        let mean := total / float_of_nat (length values) in
        Some (fold_left (fun sum val => sum + Math_pow2 (val - mean)) values 0
              / float_of_nat (length values))
    end.

(** [calculateVariance] as a total function: the guard on the length keeps
    [reduce] away from the empty array (lemma [calculateVariance_never_throws]). *)
Definition calculateVariance (values : list float) : float :=
  match values with
  | [] => 0
  | x :: rest =>
      let mean := fold_left add rest x / float_of_nat (length values) in
      fold_left (fun sum val => sum + Math_pow2 (val - mean)) values 0
      / float_of_nat (length values)
  end.

(** The three running sums of [calculateCorrelation]'s loop. *)
Record CorrSums := { numerator : float; sumX2 : float; sumY2 : float }.

Definition corr_step (meanX meanY : float) (acc : CorrSums) (xy : float * float) : CorrSums :=
  let dx := fst xy - meanX in
  let dy := snd xy - meanY in
  {| numerator := numerator acc + dx * dy;
     sumX2 := sumX2 acc + dx * dx;
     sumY2 := sumY2 acc + dy * dy |}.

Definition corr_sums (x y : list float) : CorrSums :=
  match x, y with
  | x0 :: xs, y0 :: ys =>
      let meanX := fold_left add xs x0 / float_of_nat (length x) in
      let meanY := fold_left add ys y0 / float_of_nat (length y) in
      fold_left (corr_step meanX meanY) (combine x y)
        {| numerator := 0; sumX2 := 0; sumY2 := 0 |}
  | _, _ => {| numerator := 0; sumX2 := 0; sumY2 := 0 |}
  end.

Definition calculateCorrelation (x y : list float) : float :=
  if negb (length x =? length y)%nat || (length x =? 0)%nat then 0
  else
    let s := corr_sums x y in
    let denominator := Math_sqrt (sumX2 s * sumY2 s) in
    if strict_eq denominator 0 then 0
    else Math_abs (numerator s / denominator).

(** The number of [i] in [period .. length-1] with
    [|values[i] - values[i - period]| < 0.05]. *)
Definition period_matches (values : list float) (period : Z) : nat :=
  length
    (filter
       (fun i => num_lt (Math_abs (aget values i - aget values (i - period))) 0.05)
       (for_range period (Z.of_nat (length values)) 1)).

Definition checkPeriodicity (values : list float) : float :=
  if (length values <? 4)%nat then 0
  else
    fold_left
      (fun periodicityScore period =>
         if num_gt (float_of_nat (period_matches values period)
                / float_of_Z (Z.of_nat (length values) - period)) 0.8
         then Math_max periodicityScore 0.9
         else periodicityScore)
      (for_range 1 (Z.of_nat (length values) / 2 + 1) 1)
      0.

Definition countEdges (region : list float) (regionSize : Z) : nat :=
  length
    (filter
       (fun i =>
          let col := (i mod regionSize)%Z in
          (0 <? col)%Z && (col <? regionSize - 1)%Z
          && num_gt (Math_abs (aget region i - aget region (i - 1))) 0.1)
       (for_range 1 (Z.of_nat (length region) - 1) 1)).

(** ** Reading the pixel buffer *)

(** The channel triples read by [for (i = 0; i < pixels.length; i += 4)]:
    [(pixels[i], pixels[i+1], pixels[i+2])], a channel past the end of the
    buffer being [undefined]. *)
Fixpoint rgb_stride4 (pixels : PixelBuffer) : list (float * float * float) :=
  match pixels with
  | [] => []
  | [r] => [(byte_num r, undefined_num, undefined_num)]
  | [r; g] => [(byte_num r, byte_num g, undefined_num)]
  | [r; g; b] => [(byte_num r, byte_num g, byte_num b)]
  | r :: g :: b :: _ :: rest => (byte_num r, byte_num g, byte_num b) :: rgb_stride4 rest
  end.

(** Luma of [analyzeFrequencyDomain]: channels are normalised first. *)
Definition luma_of (rgb : float * float * float) : float :=
  let '(r0, g0, b0) := rgb in
  let r := r0 / 255 in
  let g := g0 / 255 in
  let b := b0 / 255 in
  0.299 * r + 0.587 * g + 0.114 * b.

(** Grayscale of the two other luma-based analyzers: the sum is normalised. *)
Definition gray_of (rgb : float * float * float) : float :=
  let '(r, g, b) := rgb in
  let y := 0.299 * r + 0.587 * g + 0.114 * b in
  y / 255.

Definition luma_array (pixels : PixelBuffer) : list float := map luma_of (rgb_stride4 pixels).
Definition gray_array (pixels : PixelBuffer) : list float := map gray_of (rgb_stride4 pixels).

(** The [size]×[size] window at row [oy], column [ox], pushed row by row. *)
Definition window (a : list float) (width oy ox size : Z) : list float :=
  flat_map
    (fun y => map (fun x => aget a ((oy + y) * width + (ox + x))) (for_range 0 size 1))
    (for_range 0 size 1).

(** The origins [(by, bx)] visited by two nested loops, in visiting order. *)
Definition grid (ystart ybound xstart xbound step : Z) : list (Z * Z) :=
  flat_map
    (fun oy => map (fun ox => (oy, ox)) (for_range xstart xbound step))
    (for_range ystart ybound step).

(** ** Frequency-Pattern analyzer *)

Definition blockSize : Z := 8.

Definition frequency_blocks (width height : Z) : list (Z * Z) :=
  grid 0 (height - blockSize) 0 (width - blockSize) blockSize.

Definition block_anomalous (block : list float) : bool :=
  num_lt (calculateVariance block) 0.01 || num_gt (checkPeriodicity block) 0.7.

Definition frequency_total (luma : list float) (width height : Z) : float :=
  fold_left
    (fun frequencyScore '(oy, ox) =>
       if block_anomalous (window luma width oy ox blockSize)
       then frequencyScore + 0.1 else frequencyScore)
    (frequency_blocks width height) 0.

Definition analyzeFrequencyDomain (pixels : PixelBuffer) (width height : Z) : float :=
  Math_min 1 (frequency_total (luma_array pixels) width height / 10).

(** ** Compression-Boundary analyzer *)

Definition boundary_sample (gray : list float) (width oy ox : Z) : list float :=
  map (fun i => aget gray (oy * width + (ox + i))) (for_range 0 4 1).

Definition inside_sample (gray : list float) (width oy ox : Z) : list float :=
  map (fun i => aget gray ((oy + 2) * width + (ox + i))) (for_range 0 4 1).

Definition boundary_jump (gray : list float) (width oy ox : Z) : bool :=
  let boundaryVar := calculateVariance (boundary_sample gray width oy ox) in
  let insideVar := calculateVariance (inside_sample gray width oy ox) in
  num_gt (Math_abs (boundaryVar - insideVar)) 0.05.

Definition compression_boundaries (width height : Z) : list (Z * Z) :=
  grid blockSize height blockSize width blockSize.

Definition compression_total (gray : list float) (width height : Z) : float :=
  fold_left
    (fun artifactScore '(oy, ox) =>
       if boundary_jump gray width oy ox then artifactScore + 0.05 else artifactScore)
    (compression_boundaries width height) 0.

Definition detectCompressionArtifacts (pixels : PixelBuffer) (width height : Z) : float :=
  Math_min 1 (compression_total (gray_array pixels) width height).

(** ** Texture-Consistency analyzer *)

Definition regionSize : Z := 64.

Definition texture_regions (width height : Z) : list (Z * Z) :=
  grid 0 (height - regionSize) 0 (width - regionSize) regionSize.

Definition region_smooth (region : list float) : bool :=
  num_lt (calculateVariance region) 0.01
  && num_lt (float_of_nat (countEdges region regionSize)) (float_of_Z regionSize / 2).

(** The loop state: [textureScore] and the array [regions] (in push order). *)
Definition texture_scan (gray : list float) (width height : Z) : float * list float :=
  fold_left
    (fun '(textureScore, regions) '(oy, ox) =>
       let region := window gray width oy ox regionSize in
       ((if region_smooth region then textureScore + 0.1 else textureScore),
        regions ++ [calculateVariance region]))
    (texture_regions width height) (0, []).

Definition analyzeTextureConsistency (pixels : PixelBuffer) (width height : Z) : float :=
  let '(textureScore, regions) := texture_scan (gray_array pixels) width height in
  let regionVariance := calculateVariance regions in
  let textureScore :=
    if num_lt regionVariance 0.02 then textureScore + 0.2 else textureScore in
  Math_min 1 textureScore.

(** ** Color-Correlation analyzer *)

(** The samples [i = 0 .. min(pixels.length / 4, 1000) - 1]. *)
Definition color_samples (pixels : PixelBuffer) : list (float * float * float) :=
  firstn 1000 (rgb_stride4 pixels).

Definition rValues (pixels : PixelBuffer) : list float :=
  map (fun '(r, _, _) => r / 255) (color_samples pixels).
Definition gValues (pixels : PixelBuffer) : list float :=
  map (fun '(_, g, _) => g / 255) (color_samples pixels).
Definition bValues (pixels : PixelBuffer) : list float :=
  map (fun '(_, _, b) => b / 255) (color_samples pixels).

Definition color_score (rgCorr rbCorr gbCorr : float) : float :=
  let colorScore := 0 in
  let colorScore :=
    if num_gt rgCorr 0.95 || num_gt rbCorr 0.95 || num_gt gbCorr 0.95
    then colorScore + 0.3 else colorScore in
  let colorScore :=
    if num_lt rgCorr 0.3 || num_lt rbCorr 0.3 || num_lt gbCorr 0.3
    then colorScore + 0.2 else colorScore in
  Math_min 1 colorScore.

Definition detectColorAnomalies (pixels : PixelBuffer) : float :=
  let rgCorr := calculateCorrelation (rValues pixels) (gValues pixels) in
  let rbCorr := calculateCorrelation (rValues pixels) (bValues pixels) in
  let gbCorr := calculateCorrelation (gValues pixels) (bValues pixels) in
  color_score rgCorr rbCorr gbCorr.

(** ** Score combiner *)

Definition combinedScore (frequency compression texture color : float) : float :=
  frequency * 0.35 + compression * 0.25 + texture * 0.25 + color * 0.15.

(** [confidence] before [Math.round]: the local variable of the engine. *)
Definition clamp_confidence (combined : float) : float :=
  Math_min 100 (Math_max 0 (combined * 100)).

Definition risk_of (conf : float) : RiskLevel :=
  if num_gt conf 70 then high else if num_gt conf 40 then medium else low.

Definition combine_scores (frequency compression texture color : float)
  : DeepfakeAnalysisResult :=
  let conf := clamp_confidence (combinedScore frequency compression texture color) in
  {| isFake := num_gt conf 50;
     confidence := Math_round conf;
     riskLevel := risk_of conf;
     details :=
       {| frequencyAnomaly := Math_round (frequency * 100);
          compressionArtifacts := Math_round (compression * 100);
          textureInconsistency := Math_round (texture * 100);
          colorAnomalies := Math_round (color * 100) |} |}.

(** The unrounded confidence of an image. *)
Definition raw_confidence (pixels : PixelBuffer) (width height : Z) : float :=
  clamp_confidence
    (combinedScore
       (analyzeFrequencyDomain pixels width height)
       (detectCompressionArtifacts pixels width height)
       (analyzeTextureConsistency pixels width height)
       (detectColorAnomalies pixels)).

(** [analyzeImageForDeepfake] on the [ImageData] read back from the canvas:
    [pixels] is [imageData.data], [width] and [height] the canvas size. *)
Definition analyzeImageForDeepfake (pixels : PixelBuffer) (width height : Z)
  : DeepfakeAnalysisResult :=
  combine_scores
    (analyzeFrequencyDomain pixels width height)
    (detectCompressionArtifacts pixels width height)
    (analyzeTextureConsistency pixels width height)
    (detectColorAnomalies pixels).

(** * Vocabulary of the properties *)

(** ** Classes of binary64 values *)

(** Zeros, positive finite numbers and [+Infinity]. *)
Definition SFnonneg (x : spec_float) : bool :=
  match x with
  | S754_zero _ => true
  | S754_infinity s => negb s
  | S754_finite s _ _ => negb s
  | S754_nan => false
  end.

Definition SFposfin (x : spec_float) : bool :=
  match x with
  | S754_finite false _ _ => true
  | _ => false
  end.

Definition SFis_nan (x : spec_float) : bool :=
  match x with S754_nan => true | _ => false end.

Definition SFfinite (x : spec_float) : bool :=
  match x with
  | S754_finite _ _ _ | S754_zero _ => true
  | _ => false
  end.

(** The value of a finite number in units of [2^-1074], the smallest
    positive binary64 number. *)
Definition SFscaled (x : spec_float) : Z :=
  match x with
  | S754_finite s m e => ((if s then Zneg m else Zpos m) * 2 ^ (e + 1074))%Z
  | _ => 0%Z
  end.

Definition nonneg (x : float) : Prop := SFnonneg (Prim2SF x) = true.
Definition posfin (x : float) : Prop := SFposfin (Prim2SF x) = true.
Definition finite (x : float) : Prop := SFfinite (Prim2SF x) = true.
Definition scaled (x : float) : Z := SFscaled (Prim2SF x).

(** One, in the unit of [scaled]. *)
Definition one_scaled : Z := (2 ^ 1074)%Z.

(** [lo <= x <= hi] as JavaScript compares Numbers: false for NaN. *)
Definition in_range (lo hi x : float) : Prop :=
  (lo <=? x) = true /\ (x <=? hi) = true.

Definition small_integer_ok (k : nat) : bool :=
  SFfinite (Prim2SF (float_of_Z (Z.of_nat k)))
  && (SFscaled (Prim2SF (float_of_Z (Z.of_nat k))) =? Z.of_nat k * one_scaled)%Z.

(** ** Loops *)

(** The number of iterations of [for (i = start; i < bound; i += step)]. *)
Definition trip_count (start bound step : Z) : nat :=
  Z.to_nat ((bound - start + step - 1) / step).

(** ** Arrays *)

(** An index outside an array. *)
Definition outside (a : list float) (i : Z) : Prop :=
  (i < 0 \/ Z.of_nat (length a) <= i)%Z.

(** ** Values of the scores *)

(** The values [min (1, 0.05 + ... + 0.05)] of the compression score, for 0
    to 20 increments. *)
Definition compression_levels : list float :=
  map (fun j => Math_min 1 (Nat.iter j (fun s => s + 0.05) 0)) (seq 0 21).

Definition quiet_result_ok (r : DeepfakeAnalysisResult) : bool :=
  match riskLevel r with low => negb (isFake r) | _ => false end.

(** ** Test images *)

(** One RGBA pixel. *)
Definition rgba (r g b a : byte) : PixelBuffer := [r; g; b; a].

(** A [w]×[h] image of a single colour. *)
Definition uniform_image (w h : nat) (r g b a : byte) : PixelBuffer :=
  concat (repeat (rgba r g b a) (w * h)).

(** A [w]×[h] opaque image drawn row by row from a function of the pixel
    coordinates [(y, x)]. *)
Definition render (w h : nat) (color : nat -> nat -> byte * byte * byte) : PixelBuffer :=
  flat_map
    (fun y => flat_map (fun x => let '(r, g, b) := color y x in rgba r g b xff) (seq 0 w))
    (seq 0 h).

Definition black : byte * byte * byte := (x00, x00, x00).
Definition white : byte * byte * byte := (xff, xff, xff).

(** White dots on black, two at the start of each interior 8-pixel boundary
    sample: rows that are multiples of 8 (from 8 on), columns [8k] and
    [8k + 2] (from 8 on). *)
Definition dotted (y x : nat) : byte * byte * byte :=
  if (8 <=? y)%nat && (y mod 8 =? 0)%nat && (8 <=? x)%nat
     && ((x mod 8 =? 0)%nat || (x mod 8 =? 2)%nat)
  then white else black.

(** The same, without the dots of the boundary at row 32, column 40. *)
Definition dotted_but_last (y x : nat) : byte * byte * byte :=
  if (y =? 32)%nat && (40 <=? x)%nat then black else dotted y x.


(** Pseudo-random noise: the bytes of a linear congruential generator. *)
Definition lcg_next (x : Z) : Z := ((x * 1103515245 + 12345) mod 2147483648)%Z.

Definition byte_of_Z (z : Z) : byte :=
  match Byte.of_N (Z.to_N (z mod 256)) with
  | Some b => b
  | None => x00
  end.

Fixpoint lcg_bytes (n : nat) (x : Z) : list byte :=
  match n with
  | O => []
  | S n' => let x' := lcg_next x in byte_of_Z (x' / 65536) :: lcg_bytes n' x'
  end.

(** A [w]×[h] image whose every channel of every pixel is noise. *)
Definition noise_image (w h : nat) : PixelBuffer := lcg_bytes (w * h * 4) 2024.

(** The hypothesis on the blocks of a noise image, as a test. *)
Definition block_is_noisy (pixels : PixelBuffer) (width : Z) (origin : Z * Z) : bool :=
  let block := window (luma_array pixels) width (fst origin) (snd origin) blockSize in
  (0.01 <=? calculateVariance block) && (checkPeriodicity block <=? 0.7).

(** * Facts about binary64 arithmetic *)

(** ** Signs of results *)

Section Signs.

Lemma shr_1_nonneg mrs : (0 <= shr_m mrs)%Z -> (0 <= shr_m (shr_1 mrs))%Z.
Proof.
  destruct mrs as [m r s]; simpl.
  destruct m as [|p|p]; simpl; try lia.
  destruct p; simpl; lia.
Qed.

Lemma iter_pos_shr_1_nonneg p :
  forall mrs, (0 <= shr_m mrs)%Z -> (0 <= shr_m (iter_pos shr_1 p mrs))%Z.
Proof.
  induction p as [p IH|p IH|]; intros mrs H; simpl.
  - apply IH, IH, shr_1_nonneg, H.
  - apply IH, IH, H.
  - apply shr_1_nonneg, H.
Qed.

Lemma shr_fexp_nonneg m e l :
  (0 <= m)%Z -> (0 <= shr_m (fst (shr_fexp prec emax m e l)))%Z.
Proof.
  intros H. unfold shr_fexp, shr.
  assert (H0 : (0 <= shr_m (shr_record_of_loc m l))%Z).
  { destruct l as [|[ | | ]]; simpl; exact H. }
  destruct (_ - e)%Z; simpl; auto using iter_pos_shr_1_nonneg.
Qed.

Lemma round_nearest_even_nonneg m l :
  (0 <= m)%Z -> (0 <= round_nearest_even m l)%Z.
Proof.
  intros H. destruct l as [|[ | | ]]; simpl; try lia.
  destruct (Z.even m); lia.
Qed.

Lemma binary_round_aux_nonneg mx ex lx :
  (0 <= mx)%Z -> SFnonneg (binary_round_aux prec emax false mx ex lx) = true.
Proof.
  intros H. unfold binary_round_aux.
  pose proof (shr_fexp_nonneg mx ex lx H) as H1.
  destruct (shr_fexp prec emax mx ex lx) as [mrs' e']. simpl in H1.
  pose proof (shr_fexp_nonneg _ e' loc_Exact
                (round_nearest_even_nonneg _ (loc_of_shr_record mrs') H1)) as H2.
  destruct (shr_fexp prec emax _ e' loc_Exact) as [mrs'' e'']. simpl in H2.
  destruct (shr_m mrs'') as [|p|p]; try reflexivity; try lia.
  destruct (e'' <=? emax - prec)%Z; reflexivity.
Qed.

Lemma binary_round_nonneg m e :
  SFnonneg (binary_round prec emax false m e) = true.
Proof.
  unfold binary_round. destruct (shl_align _ _ _) as [mz ez].
  apply binary_round_aux_nonneg. lia.
Qed.

Lemma SFadd_nonneg x y :
  SFnonneg x = true -> SFnonneg y = true -> SFnonneg (SF64add x y) = true.
Proof.
  destruct x as [sx|sx| |sx mx ex], y as [sy|sy| |sy my ey]; simpl;
    try discriminate; try (destruct sx, sy; simpl; congruence); auto.
  destruct sx, sy; simpl; try discriminate. intros _ _.
  apply binary_round_nonneg.
Qed.

Lemma add_nonneg x y : nonneg x -> nonneg y -> nonneg (x + y).
Proof. unfold nonneg. rewrite add_spec. apply SFadd_nonneg. Qed.

Lemma SFmul_nonneg x c :
  SFnonneg x = true -> SFposfin c = true -> SFnonneg (SF64mul x c) = true.
Proof.
  destruct x as [sx|sx| |sx mx ex], c as [sy|sy| |sy my ey]; simpl;
    try discriminate; destruct sy; try discriminate; auto.
  - destruct sx; auto.
  - destruct sx; try discriminate. intros _ _.
    apply binary_round_aux_nonneg. lia.
Qed.

Lemma mul_nonneg x c : nonneg x -> posfin c -> nonneg (x * c).
Proof. unfold nonneg, posfin. rewrite mul_spec. apply SFmul_nonneg. Qed.

Lemma SFdiv_core_nonneg mx ex my ey :
  (0 <= fst (fst (SFdiv_core_binary prec emax (Zpos mx) ex (Zpos my) ey)))%Z.
Proof.
  unfold SFdiv_core_binary.
  set (s := (ex - ey - _)%Z).
  set (m' := match s with Zpos _ => Z.shiftl (Zpos mx) s | Z0 => Zpos mx | Zneg _ => 0%Z end).
  assert (Hm : (0 <= m')%Z).
  { subst m'. destruct s; try lia. apply Z.shiftl_nonneg. lia. }
  pose proof (Z.div_pos m' (Zpos my) Hm eq_refl) as Hq.
  unfold Z.div in Hq.
  destruct (Z.div_eucl m' (Zpos my)) as [q r]. simpl in *. exact Hq.
Qed.

Lemma SFdiv_nonneg x c :
  SFnonneg x = true -> SFposfin c = true -> SFnonneg (SF64div x c) = true.
Proof.
  destruct x as [sx|sx| |sx mx ex], c as [sy|sy| |sy my ey]; simpl;
    try discriminate; destruct sy; try discriminate; auto.
  - destruct sx; auto.
  - destruct sx; try discriminate. intros _ _.
    pose proof (SFdiv_core_nonneg mx ex my ey) as H.
    destruct (SFdiv_core_binary prec emax (Zpos mx) ex (Zpos my) ey) as [[mz ez] lz].
    apply binary_round_aux_nonneg. exact H.
Qed.

Lemma div_nonneg x c : nonneg x -> posfin c -> nonneg (x / c).
Proof. unfold nonneg, posfin. rewrite div_spec. apply SFdiv_nonneg. Qed.

End Signs.

(** ** Order, [Math.min] and [Math.max] *)

Section Order.

Lemma SFcompare_refl x : SFis_nan x = false -> SFcompare x x = Some Eq.
Proof.
  destruct x as [s|s| |s m e]; simpl; try discriminate; intros _.
  - reflexivity.
  - destruct s; reflexivity.
  - destruct s; rewrite Z.compare_refl, Pos.compare_cont_refl; reflexivity.
Qed.

Lemma is_nan_spec x : is_nan x = SFis_nan (Prim2SF x).
Proof.
  unfold is_nan. rewrite eqb_spec. unfold SFeqb.
  destruct (SFis_nan (Prim2SF x)) eqn:E.
  - destruct (Prim2SF x); try discriminate. reflexivity.
  - rewrite SFcompare_refl by exact E. reflexivity.
Qed.

Lemma SFcompare_antisym x y :
  SFcompare y x = option_map CompOpp (SFcompare x y).
Proof.
  destruct x as [sx|sx| |sx mx ex], y as [sy|sy| |sy my ey]; simpl;
    try reflexivity;
    try (destruct sx; reflexivity); try (destruct sy; reflexivity);
    try (destruct sx, sy; reflexivity).
  destruct sx, sy; simpl; try reflexivity;
    rewrite (Z.compare_antisym ex ey);
    destruct (ex ?= ey)%Z; simpl; try reflexivity;
    rewrite (Pos.compare_cont_antisym mx my Eq); simpl;
    try rewrite CompOpp_involutive; reflexivity.
Qed.

Lemma SFcompare_total x y :
  SFis_nan x = false -> SFis_nan y = false -> exists c, SFcompare x y = Some c.
Proof.
  destruct x, y; simpl; try discriminate; intros _ _; eexists; reflexivity.
Qed.

Lemma ltb_leb a b : (a <? b) = true -> (a <=? b) = true.
Proof.
  rewrite ltb_spec, leb_spec. unfold SFltb, SFleb.
  destruct (SFcompare _ _) as [[ | | ]|]; congruence.
Qed.

Lemma not_ltb_leb a b :
  is_nan a = false -> is_nan b = false -> (a <? b) = false -> (b <=? a) = true.
Proof.
  rewrite !is_nan_spec, ltb_spec, leb_spec. unfold SFltb, SFleb.
  intros Ha Hb. rewrite (SFcompare_antisym (Prim2SF a) (Prim2SF b)).
  destruct (SFcompare_total _ _ Ha Hb) as [c ->]. destruct c; simpl; congruence.
Qed.

Lemma leb_refl a : is_nan a = false -> (a <=? a) = true.
Proof.
  rewrite is_nan_spec, leb_spec. unfold SFleb. intros H.
  rewrite SFcompare_refl by exact H. reflexivity.
Qed.

Lemma nonneg_not_nan x : nonneg x -> is_nan x = false.
Proof.
  unfold nonneg. rewrite is_nan_spec. destruct (Prim2SF x); simpl; congruence.
Qed.

Lemma nonneg_leb_0 x : nonneg x -> (0 <=? x) = true.
Proof.
  unfold nonneg. rewrite leb_spec.
  change (Prim2SF 0) with (S754_zero false).
  destruct (Prim2SF x) as [s|s| |s m e]; try destruct s; cbn; congruence.
Qed.

Lemma leb_0_nonneg x : (0 <=? x) = true -> nonneg x.
Proof.
  unfold nonneg. rewrite leb_spec.
  change (Prim2SF 0) with (S754_zero false).
  destruct (Prim2SF x) as [s|s| |s m e]; try destruct s; cbn; congruence.
Qed.

(** [Math.min] and [Math.max] of two numbers pick one of them. *)
Lemma Math_min_cases a b :
  is_nan a = false -> is_nan b = false ->
  (Math_min a b = a /\ (a <=? b) = true) \/ (Math_min a b = b /\ (b <=? a) = true).
Proof.
  intros Ha Hb. unfold Math_min. rewrite Ha, Hb. simpl.
  destruct (a <? b) eqn:Hab.
  - left. split; [reflexivity | apply ltb_leb, Hab].
  - destruct (b <? a) eqn:Hba.
    + right. split; [reflexivity | apply ltb_leb, Hba].
    + destruct (get_sign a).
      * left. split; [reflexivity | apply not_ltb_leb; assumption].
      * right. split; [reflexivity | apply not_ltb_leb; assumption].
Qed.

Lemma Math_max_cases a b :
  is_nan a = false -> is_nan b = false ->
  (Math_max a b = a /\ (b <=? a) = true) \/ (Math_max a b = b /\ (a <=? b) = true).
Proof.
  intros Ha Hb. unfold Math_max. rewrite Ha, Hb. simpl.
  destruct (a <? b) eqn:Hab.
  - right. split; [reflexivity | apply ltb_leb, Hab].
  - destruct (b <? a) eqn:Hba.
    + left. split; [reflexivity | apply ltb_leb, Hba].
    + destruct (get_sign a).
      * right. split; [reflexivity | apply not_ltb_leb; assumption].
      * left. split; [reflexivity | apply not_ltb_leb; assumption].
Qed.


(** Capping a non-negative accumulator: [Math.min(hi, x)] is in [[0, hi]]. *)
Lemma Math_min_cap hi x :
  posfin hi -> nonneg x -> in_range 0 hi (Math_min hi x).
Proof.
  intros Hhi Hx.
  assert (Hh : nonneg hi).
  { unfold posfin, nonneg in *. destruct (Prim2SF hi) as [| | |[] ? ?]; try discriminate. reflexivity. }
  destruct (Math_min_cases hi x (nonneg_not_nan _ Hh) (nonneg_not_nan _ Hx))
    as [[-> _]|[-> H]]; split.
  - apply nonneg_leb_0, Hh.
  - apply leb_refl, nonneg_not_nan, Hh.
  - apply nonneg_leb_0, Hx.
  - exact H.
Qed.

(** Flooring at zero: [Math.max(0, x)] of a number is non-negative. *)
Lemma Math_max_floor x : is_nan x = false -> nonneg (Math_max 0 x).
Proof.
  intros Hx.
  destruct (Math_max_cases 0 x eq_refl Hx) as [[-> _]|[-> H]].
  - reflexivity.
  - apply leb_0_nonneg, H.
Qed.

End Order.

(** ** Exact values *)

Section Values.

Local Open Scope Z_scope.

Lemma digits2_pos_ub m : Zpos m < 2 ^ Zpos (digits2_pos m).
Proof.
  induction m as [m IH|m IH|]; simpl digits2_pos;
    rewrite ?Pos2Z.inj_succ, ?Z.pow_succ_r by lia; lia.
Qed.

Lemma digits2_pos_lb m : 2 ^ (Zpos (digits2_pos m) - 1) <= Zpos m.
Proof.
  induction m as [m IH|m IH|]; simpl digits2_pos;
    rewrite ?Pos2Z.inj_succ; try (simpl; lia);
    replace (Z.succ (Zpos (digits2_pos m)) - 1) with (Z.succ (Zpos (digits2_pos m) - 1)) by lia;
    rewrite Z.pow_succ_r by lia; lia.
Qed.

(** What validity says about a mantissa and its exponent. *)
Lemma bounded_canonical m e :
  bounded prec emax m e = true ->
  -1074 <= e /\ Zpos m < 2 ^ 53 /\ (-1074 < e -> 2 ^ 52 <= Zpos m).
Proof.
  unfold bounded, canonical_mantissa, fexp, SpecFloat.emin, prec, emax.
  intros H. apply andb_true_iff in H. destruct H as [H _].
  apply Z.eqb_eq in H.
  pose proof (digits2_pos_ub m) as Hub. pose proof (digits2_pos_lb m) as Hlb.
  set (d := Zpos (digits2_pos m)) in *.
  assert (Hd : 0 < d) by (subst d; lia).
  split; [lia|]. split.
  - assert (d <= 53) by lia.
    eapply Z.lt_le_trans; [exact Hub|]. apply Z.pow_le_mono_r; lia.
  - intros He. assert (d = 53) by lia.
    replace 52 with (d - 1) by lia. exact Hlb.
Qed.

Lemma compare_magnitudes m1 e1 m2 e2 :
  bounded prec emax m1 e1 = true -> bounded prec emax m2 e2 = true ->
  match e1 ?= e2 with
  | Lt => Lt
  | Gt => Gt
  | Eq => Pos.compare_cont Eq m1 m2
  end = (Zpos m1 * 2 ^ (e1 + 1074) ?= Zpos m2 * 2 ^ (e2 + 1074)).
Proof.
  intros H1 H2.
  destruct (bounded_canonical _ _ H1) as (He1 & Hu1 & Hl1).
  destruct (bounded_canonical _ _ H2) as (He2 & Hu2 & Hl2).
  destruct (Z.compare_spec e1 e2) as [E|E|E].
  - subst e2. symmetry.
    assert (Hp : 0 < 2 ^ (e1 + 1074)) by (apply Z.pow_pos_nonneg; lia).
    change (Pos.compare_cont Eq m1 m2) with (Zpos m1 ?= Zpos m2).
    destruct (Z.compare_spec (Zpos m1) (Zpos m2)) as [F|F|F].
    + rewrite F. apply Z.compare_refl.
    + apply Z.compare_lt_iff. nia.
    + apply Z.compare_gt_iff. nia.
  - symmetry. apply Z.compare_lt_iff.
    replace (e2 + 1074) with ((e2 - e1 - 1) + 1 + (e1 + 1074)) by lia.
    rewrite (Z.pow_add_r 2 (e2 - e1 - 1 + 1)), (Z.pow_add_r 2 (e2 - e1 - 1) 1) by lia.
    assert (0 < 2 ^ (e1 + 1074)) by (apply Z.pow_pos_nonneg; lia).
    assert (0 < 2 ^ (e2 - e1 - 1)) by (apply Z.pow_pos_nonneg; lia).
    assert (Hl2' : 2 ^ 52 <= Zpos m2) by (apply Hl2; lia).
    change (2 ^ 53) with 9007199254740992 in *.
    change (2 ^ 52) with 4503599627370496 in *.
    change (2 ^ 1) with 2.
    rewrite Z.mul_assoc. apply Z.mul_lt_mono_pos_r; [assumption|]. nia.
  - symmetry. apply Z.compare_gt_iff.
    replace (e1 + 1074) with ((e1 - e2 - 1) + 1 + (e2 + 1074)) by lia.
    rewrite (Z.pow_add_r 2 (e1 - e2 - 1 + 1)), (Z.pow_add_r 2 (e1 - e2 - 1) 1) by lia.
    assert (0 < 2 ^ (e2 + 1074)) by (apply Z.pow_pos_nonneg; lia).
    assert (0 < 2 ^ (e1 - e2 - 1)) by (apply Z.pow_pos_nonneg; lia).
    assert (Hl1' : 2 ^ 52 <= Zpos m1) by (apply Hl1; lia).
    change (2 ^ 53) with 9007199254740992 in *.
    change (2 ^ 52) with 4503599627370496 in *.
    change (2 ^ 1) with 2.
    rewrite Z.mul_assoc. apply Z.mul_lt_mono_pos_r; [assumption|]. nia.
Qed.

(** On finite numbers the IEEE comparison is the comparison of values. *)
Lemma SFcompare_scaled x y :
  valid_binary x = true -> valid_binary y = true ->
  SFfinite x = true -> SFfinite y = true ->
  SFcompare x y = Some (SFscaled x ?= SFscaled y).
Proof.
  destruct x as [sx|sx| |sx mx ex], y as [sy|sy| |sy my ey];
    cbn [SFfinite valid_binary SFcompare SFscaled];
    try discriminate; intros Hx Hy _ _.
  - reflexivity.
  - destruct (bounded_canonical _ _ Hy) as (He & _).
    assert (0 < 2 ^ (ey + 1074)) by (apply Z.pow_pos_nonneg; lia).
    f_equal. symmetry. destruct sy.
    + apply Z.compare_gt_iff. nia.
    + apply Z.compare_lt_iff. nia.
  - destruct (bounded_canonical _ _ Hx) as (He & _).
    assert (0 < 2 ^ (ex + 1074)) by (apply Z.pow_pos_nonneg; lia).
    f_equal. symmetry. destruct sx.
    + apply Z.compare_lt_iff. nia.
    + apply Z.compare_gt_iff. nia.
  - pose proof (compare_magnitudes _ _ _ _ Hx Hy) as Hxy.
    destruct (bounded_canonical _ _ Hx) as (Hex & _).
    destruct (bounded_canonical _ _ Hy) as (Hey & _).
    assert (0 < 2 ^ (ex + 1074)) by (apply Z.pow_pos_nonneg; lia).
    assert (0 < 2 ^ (ey + 1074)) by (apply Z.pow_pos_nonneg; lia).
    f_equal. destruct sx, sy.
    + rewrite <- !Pos2Z.opp_pos, !Z.mul_opp_l, Z.compare_opp.
      rewrite (Z.compare_antisym (Zpos mx * _)), <- Hxy.
      destruct (ex ?= ey); reflexivity.
    + symmetry. apply Z.compare_lt_iff. nia.
    + symmetry. apply Z.compare_gt_iff. nia.
    + exact Hxy.
Qed.

Lemma ltb_scaled a b :
  finite a -> finite b -> (a <? b)%float = (scaled a <? scaled b).
Proof.
  intros Ha Hb. rewrite ltb_spec. unfold SFltb.
  rewrite SFcompare_scaled by (auto using Prim2SF_valid).
  unfold Z.ltb, scaled. destruct (_ ?= _); reflexivity.
Qed.

Lemma leb_scaled a b :
  finite a -> finite b -> (a <=? b)%float = (scaled a <=? scaled b).
Proof.
  intros Ha Hb. rewrite leb_spec. unfold SFleb.
  rewrite SFcompare_scaled by (auto using Prim2SF_valid).
  unfold Z.leb, scaled. destruct (_ ?= _); reflexivity.
Qed.

(** A number between two finite numbers is finite. *)
Lemma in_range_finite lo hi x :
  finite lo -> finite hi -> in_range lo hi x -> finite x.
Proof.
  unfold finite, in_range. rewrite !leb_spec. unfold SFleb.
  destruct (Prim2SF lo) as [sl|sl| |sl ml el], (Prim2SF hi) as [sh|sh| |sh mh eh],
    (Prim2SF x) as [s|s| |s m e]; simpl; try discriminate; auto;
    intros _ _ [H1 H2]; try discriminate;
    destruct s; try discriminate; destruct sl, sh; discriminate.
Qed.

End Values.

(** ** [Math.round] on a percentage *)

Section Rounding.

Local Open Scope Z_scope.

Lemma one_scaled_pos : 0 < one_scaled.
Proof. reflexivity. Qed.


Lemma small_integers_checked : forallb small_integer_ok (seq 0 101) = true.
Proof. vm_compute. reflexivity. Qed.

(** The integers up to 100 are represented exactly. *)
Lemma float_of_Z_small n :
  0 <= n <= 100 -> finite (float_of_Z n) /\ scaled (float_of_Z n) = n * one_scaled.
Proof.
  intros Hn.
  pose proof (proj1 (forallb_forall _ _) small_integers_checked (Z.to_nat n)) as H.
  assert (Hin : In (Z.to_nat n) (seq 0 101)) by (apply in_seq; lia).
  specialize (H Hin). unfold small_integer_ok in H.
  rewrite Z2Nat.id in H by lia.
  apply andb_true_iff in H. destruct H as [H1 H2].
  apply Z.eqb_eq in H2. split; assumption.
Qed.

Lemma scaled_100 : scaled 100 = 100 * one_scaled.
Proof. vm_compute. reflexivity. Qed.

(** [Math.round x] is the integer [n] with [n <= x + 1/2 < n + 1]. *)
Lemma Math_round_bracket x :
  in_range 0 100 x ->
  exists n,
    0 <= n <= 100 /\ finite (Math_round x) /\ scaled (Math_round x) = n * one_scaled
    /\ 2 * one_scaled * n <= 2 * scaled x + one_scaled < 2 * one_scaled * (n + 1).
Proof.
  intros Hr.
  assert (Hfin : finite x).
  { eapply (in_range_finite 0 100); [reflexivity | reflexivity | exact Hr]. }
  destruct Hr as [H0 H100].
  rewrite leb_scaled in H0, H100 by (assumption || reflexivity).
  rewrite scaled_100 in H100. change (scaled 0) with 0 in H0.
  apply Z.leb_le in H0, H100.
  pose proof one_scaled_pos as HQ.
  pose proof (Prim2SF_valid x) as Hv.
  unfold Math_round, finite, scaled in *.
  destruct (Prim2SF x) as [s|s| |s m e] eqn:E; try discriminate.
  - exists 0. rewrite E. cbn [SFfinite SFscaled]. repeat split; lia.
  - cbn [SFscaled valid_binary] in *.
    destruct (bounded_canonical _ _ Hv) as (He & Hu & Hl).
    assert (HR : 0 < 2 ^ (e + 1074)) by (apply Z.pow_pos_nonneg; lia).
    destruct s; [exfalso; nia|].
    destruct (0 <=? e) eqn:Ee.
    + exfalso. apply Z.leb_le in Ee.
      assert (2 ^ 52 <= Zpos m) by (apply Hl; lia).
      assert (one_scaled <= 2 ^ (e + 1074)).
      { unfold one_scaled. apply Z.pow_le_mono_r; lia. }
      change (2 ^ 52) with 4503599627370496 in *. nia.
    + apply Z.leb_gt in Ee.
      set (n := round_to_Z false m e).
      assert (HP : 0 < 2 ^ (- e)) by (apply Z.pow_pos_nonneg; lia).
      assert (HPR : 2 ^ (- e) * 2 ^ (e + 1074) = one_scaled).
      { rewrite <- Z.pow_add_r by lia. unfold one_scaled. f_equal. lia. }
      assert (H2P : 2 ^ (1 - e) = 2 * 2 ^ (- e)).
      { replace (1 - e) with (Z.succ (- e)) by lia. apply Z.pow_succ_r. lia. }
      assert (Hdiv : 2 * 2 ^ (- e) * n <= 2 * Zpos m + 2 ^ (- e)
                     < 2 * 2 ^ (- e) * (n + 1)).
      { subst n. unfold round_to_Z. rewrite H2P.
        pose proof (Z.div_mod (2 * Zpos m + 2 ^ (- e)) (2 * 2 ^ (- e)) ltac:(lia)) as Hdm.
        pose proof (Z.mod_pos_bound (2 * Zpos m + 2 ^ (- e)) (2 * 2 ^ (- e)) ltac:(lia)) as Hmb.
        lia. }
      assert (Hbr : 2 * one_scaled * n <= 2 * (Zpos m * 2 ^ (e + 1074)) + one_scaled
                    < 2 * one_scaled * (n + 1)).
      { rewrite <- HPR. split; nia. }
      assert (Hn : 0 <= n <= 100) by nia.
      exists n. split; [exact Hn|].
      assert (Hres : (if n =? 0 then zero else float_of_Z n) = float_of_Z n).
      { destruct (Z.eqb_spec n 0) as [->|]; reflexivity. }
      rewrite Hres.
      destruct (float_of_Z_small n Hn) as [Hf Hs].
      split; [exact Hf|]. split; [exact Hs|]. exact Hbr.
Qed.

Lemma Math_round_range x : in_range 0 100 x -> in_range 0 100 (Math_round x).
Proof.
  intros Hr. destruct (Math_round_bracket x Hr) as (n & Hn & Hf & Hs & _).
  pose proof one_scaled_pos. unfold in_range.
  rewrite !leb_scaled by (assumption || reflexivity).
  rewrite Hs, scaled_100. change (scaled 0) with 0.
  split; apply Z.leb_le; nia.
Qed.

End Rounding.

(** * Loops *)

(** ** Closed form of a counted loop *)

Section Loops.

Local Open Scope Z_scope.

Lemma loop_values_closed fuel : forall i bound step,
  0 < step -> (Z.to_nat (bound - i) <= fuel)%nat ->
  loop_values fuel i bound step
  = map (fun k => i + step * Z.of_nat k) (seq 0 (trip_count i bound step)).
Proof.
  induction fuel as [|fuel IH]; intros i bound step Hs Hf; simpl.
  - assert (Hle : bound - i <= 0) by lia.
    unfold trip_count.
    assert ((bound - i + step - 1) / step <= 0).
    { apply Z.lt_succ_r. apply Z.div_lt_upper_bound; lia. }
    replace (Z.to_nat _) with 0%nat by lia. reflexivity.
  - destruct (i <? bound) eqn:E.
    + apply Z.ltb_lt in E.
      rewrite IH by lia.
      assert (Hc : trip_count i bound step = S (trip_count (i + step) bound step)).
      { unfold trip_count.
        replace (bound - i + step - 1) with ((bound - (i + step) + step - 1) + 1 * step) by lia.
        rewrite Z.div_add by lia.
        assert (0 <= (bound - (i + step) + step - 1) / step).
        { apply Z.div_pos; lia. }
        lia. }
      rewrite Hc. simpl. f_equal; [lia|].
      rewrite <- seq_shift, map_map. apply map_ext. intros k. lia.
    + apply Z.ltb_ge in E. unfold trip_count.
      assert ((bound - i + step - 1) / step <= 0).
      { apply Z.lt_succ_r. apply Z.div_lt_upper_bound; lia. }
      replace (Z.to_nat _) with 0%nat by lia. reflexivity.
Qed.

Lemma for_range_closed start bound step :
  0 < step ->
  for_range start bound step
  = map (fun k => start + step * Z.of_nat k) (seq 0 (trip_count start bound step)).
Proof. intros H. apply loop_values_closed; [exact H | lia]. Qed.

(** The loop gives up because its test fails, never for lack of fuel. *)
Lemma loop_values_fuel fuel i bound step :
  0 < step -> (Z.to_nat (bound - i) <= fuel)%nat ->
  loop_values fuel i bound step = for_range i bound step.
Proof.
  intros Hs Hf. rewrite for_range_closed by exact Hs.
  apply loop_values_closed; assumption.
Qed.

Lemma for_range_length start bound step :
  0 < step -> length (for_range start bound step) = trip_count start bound step.
Proof.
  intros H. rewrite for_range_closed by exact H.
  rewrite length_map, length_seq. reflexivity.
Qed.




Lemma grid_length ys yb xs xb step :
  0 < step ->
  length (grid ys yb xs xb step)
  = (trip_count ys yb step * trip_count xs xb step)%nat.
Proof.
  intros Hs. unfold grid.
  rewrite <- (for_range_length ys yb step Hs).
  induction (for_range ys yb step) as [|y l IH]; simpl; [reflexivity|].
  rewrite length_app, length_map, IH, for_range_length by exact Hs. reflexivity.
Qed.



End Loops.

(** * Running totals *)

Section Accumulators.

Context {A S : Type}.

Lemma fold_left_invariant (P : S -> Prop) (f : S -> A -> S) (l : list A) :
  forall s, P s -> (forall s a, In a l -> P s -> P (f s a)) -> P (fold_left f l s).
Proof.
  induction l as [|a l IH]; intros s Hs Hf; simpl; [exact Hs|].
  apply IH.
  - apply Hf; [left; reflexivity | exact Hs].
  - intros s' a' Hin. apply Hf. right. exact Hin.
Qed.

(** A loop whose every iteration applies the same step. *)
Lemma fold_left_same_step (f : S -> A -> S) (g : S -> S) (l : list A) :
  forall s, (forall s a, In a l -> f s a = g s) ->
  fold_left f l s = Nat.iter (length l) g s.
Proof.
  induction l as [|a l IH]; intros s Hf; simpl; [reflexivity|].
  rewrite IH by (intros; apply Hf; right; assumption).
  rewrite Hf by (left; reflexivity).
  clear. induction (length l) as [|n IHn]; simpl; [reflexivity|].
  rewrite IHn. reflexivity.
Qed.

(** A loop none of whose iterations changes the state. *)
Lemma fold_left_idle (f : S -> A -> S) (l : list A) :
  forall s, (forall s a, In a l -> f s a = s) -> fold_left f l s = s.
Proof.
  intros s Hf. rewrite (fold_left_same_step f (fun s => s)) by exact Hf.
  induction (length l); simpl; auto.
Qed.

End Accumulators.

Lemma posfin_nonneg c : posfin c -> nonneg c.
Proof.
  unfold posfin, nonneg. destruct (Prim2SF c) as [| | |[] ? ?]; simpl; congruence.
Qed.

(** ** The analyzer scores are in [[0, 1]] *)

Lemma frequency_total_nonneg luma width height :
  nonneg (frequency_total luma width height).
Proof.
  unfold frequency_total. apply fold_left_invariant; [reflexivity|].
  intros s [oy ox] _ Hs. destruct (block_anomalous _); [|exact Hs].
  apply add_nonneg; [exact Hs | reflexivity].
Qed.

Lemma analyzeFrequencyDomain_range pixels width height :
  in_range 0 1 (analyzeFrequencyDomain pixels width height).
Proof.
  unfold analyzeFrequencyDomain. apply Math_min_cap; [reflexivity|].
  apply div_nonneg; [apply frequency_total_nonneg | reflexivity].
Qed.

Lemma compression_total_nonneg gray width height :
  nonneg (compression_total gray width height).
Proof.
  unfold compression_total. apply fold_left_invariant; [reflexivity|].
  intros s [oy ox] _ Hs. destruct (boundary_jump _ _ _ _); [|exact Hs].
  apply add_nonneg; [exact Hs | reflexivity].
Qed.

Lemma detectCompressionArtifacts_range pixels width height :
  in_range 0 1 (detectCompressionArtifacts pixels width height).
Proof.
  unfold detectCompressionArtifacts. apply Math_min_cap; [reflexivity|].
  apply compression_total_nonneg.
Qed.

Lemma texture_scan_nonneg gray width height :
  nonneg (fst (texture_scan gray width height)).
Proof.
  unfold texture_scan.
  apply (fold_left_invariant (fun st => nonneg (fst st))); [reflexivity|].
  intros [s regions] [oy ox] _ Hs. cbn [fst] in Hs |- *.
  destruct (region_smooth _); [|exact Hs].
  apply add_nonneg; [exact Hs | reflexivity].
Qed.

Lemma analyzeTextureConsistency_range pixels width height :
  in_range 0 1 (analyzeTextureConsistency pixels width height).
Proof.
  unfold analyzeTextureConsistency.
  pose proof (texture_scan_nonneg (gray_array pixels) width height) as H.
  destruct (texture_scan _ _ _) as [s regions]. simpl in H.
  apply Math_min_cap; [reflexivity|].
  destruct (num_lt _ _); [|exact H].
  apply add_nonneg; [exact H | reflexivity].
Qed.

(** The four values the colour score can take. *)
Lemma color_score_values rg rb gb :
  let c := color_score rg rb gb in
  c = 0 \/ c = 0.2 \/ c = 0.3 \/ c = 0.5.
Proof.
  unfold color_score.
  destruct (num_gt rg 0.95 || num_gt rb 0.95 || num_gt gb 0.95);
    destruct (num_lt rg 0.3 || num_lt rb 0.3 || num_lt gb 0.3); vm_compute; auto.
Qed.

Lemma detectColorAnomalies_range pixels :
  in_range 0 1 (detectColorAnomalies pixels).
Proof.
  unfold detectColorAnomalies.
  destruct (color_score_values
              (calculateCorrelation (rValues pixels) (gValues pixels))
              (calculateCorrelation (rValues pixels) (bValues pixels))
              (calculateCorrelation (gValues pixels) (bValues pixels)))
    as [H|[H|[H|H]]]; rewrite H; split; reflexivity.
Qed.

(** ** The unrounded confidence is in [[0, 100]] *)

Lemma in_range_nonneg hi x : in_range 0 hi x -> nonneg x.
Proof. intros [H _]. apply leb_0_nonneg, H. Qed.

Lemma combinedScore_nonneg f c t k :
  nonneg f -> nonneg c -> nonneg t -> nonneg k -> nonneg (combinedScore f c t k).
Proof.
  intros Hf Hc Ht Hk. unfold combinedScore.
  repeat apply add_nonneg; apply mul_nonneg; try assumption; reflexivity.
Qed.

Lemma clamp_confidence_range combined :
  nonneg combined -> in_range 0 100 (clamp_confidence combined).
Proof.
  intros H. unfold clamp_confidence. apply Math_min_cap; [reflexivity|].
  apply Math_max_floor, nonneg_not_nan, mul_nonneg; [exact H | reflexivity].
Qed.

Lemma raw_confidence_range pixels width height :
  in_range 0 100 (raw_confidence pixels width height).
Proof.
  unfold raw_confidence. apply clamp_confidence_range, combinedScore_nonneg.
  - eapply in_range_nonneg, analyzeFrequencyDomain_range.
  - eapply in_range_nonneg, detectCompressionArtifacts_range.
  - eapply in_range_nonneg, analyzeTextureConsistency_range.
  - eapply in_range_nonneg, detectColorAnomalies_range.
Qed.

(** ** Rounded percentages against the combiner's thresholds *)

Section Thresholds.

Local Open Scope Z_scope.

(** The thresholds of the combiner are integers below 100. *)
Lemma threshold_scaled k :
  In k [40%float; 50%float; 70%float] ->
  finite k /\ exists n, 0 <= n <= 100 /\ scaled k = n * one_scaled.
Proof.
  intros [<-|[<-|[<-|[]]]]; (split; [reflexivity|]).
  - exists 40. split; [lia | vm_compute; reflexivity].
  - exists 50. split; [lia | vm_compute; reflexivity].
  - exists 70. split; [lia | vm_compute; reflexivity].
Qed.

Variable x : float.
Hypothesis Hx : in_range 0 100 x.

Variable k : float.
Hypothesis Hk : In k [40%float; 50%float; 70%float].

(** A rounded percentage above a threshold comes from a value above it. *)
Lemma round_above_threshold :
  num_gt (Math_round x) k = true -> num_gt x k = true.
Proof.
  destruct (threshold_scaled k Hk) as (Hkf & t & Ht & Hks).
  destruct (Math_round_bracket x Hx) as (n & Hn & Hf & Hs & Hb).
  assert (Hxf : finite x).
  { eapply (in_range_finite 0 100); [reflexivity | reflexivity | exact Hx]. }
  pose proof one_scaled_pos.
  unfold num_gt. rewrite !ltb_scaled by assumption.
  rewrite Hs, Hks. intros H1. apply Z.ltb_lt in H1. apply Z.ltb_lt.
  assert (t + 1 <= n) by nia.
  assert (one_scaled * (t + 1) <= one_scaled * n) by (apply Z.mul_le_mono_nonneg_l; lia).
  lia.
Qed.

(** A rounded percentage below a threshold comes from a value not above it. *)
Lemma round_below_threshold :
  num_lt (Math_round x) k = true -> num_gt x k = false.
Proof.
  destruct (threshold_scaled k Hk) as (Hkf & t & Ht & Hks).
  destruct (Math_round_bracket x Hx) as (n & Hn & Hf & Hs & Hb).
  assert (Hxf : finite x).
  { eapply (in_range_finite 0 100); [reflexivity | reflexivity | exact Hx]. }
  pose proof one_scaled_pos.
  unfold num_gt, num_lt. rewrite !ltb_scaled by assumption.
  rewrite Hs, Hks. intros H1. apply Z.ltb_lt in H1. apply Z.ltb_ge.
  assert (n + 1 <= t) by nia.
  assert (one_scaled * (n + 1) <= one_scaled * t) by (apply Z.mul_le_mono_nonneg_l; lia).
  lia.
Qed.

(** A rounded percentage equal to a threshold comes from a value within a
    half of it. *)
Lemma round_at_threshold :
  Math_round x = k ->
  2 * scaled k - one_scaled <= 2 * scaled x < 2 * scaled k + one_scaled.
Proof.
  destruct (threshold_scaled k Hk) as (Hkf & t & Ht & Hks).
  destruct (Math_round_bracket x Hx) as (n & Hn & Hf & Hs & Hb).
  intros E. rewrite E in Hs. rewrite Hks in *.
  pose proof one_scaled_pos.
  assert (n = t) by nia. subst t. lia.
Qed.

End Thresholds.

Lemma risk_of_rounded c :
  in_range 0 100 c ->
  (num_gt (Math_round c) 70 = true -> risk_of c = high)
  /\ (num_gt (Math_round c) 40 = true -> num_lt (Math_round c) 70 = true ->
      risk_of c = medium)
  /\ (num_lt (Math_round c) 40 = true -> risk_of c = low)
  /\ (Math_round c = 70 -> risk_of c <> low)
  /\ (Math_round c = 40 -> risk_of c <> high).
Proof.
  intros Hc. unfold risk_of.
  assert (H70 : In 70 [40; 50; 70]) by (simpl; auto).
  assert (H40 : In 40 [40; 50; 70]) by (simpl; auto).
  assert (Hcf : finite c).
  { eapply (in_range_finite 0 100); [reflexivity | reflexivity | exact Hc]. }
  pose proof one_scaled_pos as HQ.
  repeat split.
  - intros H. rewrite (round_above_threshold c Hc 70 H70 H). reflexivity.
  - intros Ha Hb. rewrite (round_below_threshold c Hc 70 H70 Hb).
    rewrite (round_above_threshold c Hc 40 H40 Ha). reflexivity.
  - intros H. pose proof (round_below_threshold c Hc 40 H40 H) as H4.
    destruct (num_gt c 70) eqn:E7.
    + exfalso. unfold num_gt in *. rewrite ltb_scaled in * by (assumption || reflexivity).
      apply Z.ltb_lt in E7. apply Z.ltb_ge in H4.
      change (scaled 70) with (70 * one_scaled)%Z in E7.
      change (scaled 40) with (40 * one_scaled)%Z in H4. lia.
    + rewrite H4. reflexivity.
  - intros H. pose proof (round_at_threshold c Hc 70 H70 H) as Hb.
    change (scaled 70) with (70 * one_scaled)%Z in Hb.
    destruct (num_gt c 70); [discriminate|].
    assert (E : num_gt c 40 = true).
    { unfold num_gt. rewrite ltb_scaled by (assumption || reflexivity).
      change (scaled 40) with (40 * one_scaled)%Z. apply Z.ltb_lt. lia. }
    rewrite E. discriminate.
  - intros H. pose proof (round_at_threshold c Hc 40 H40 H) as Hb.
    change (scaled 40) with (40 * one_scaled)%Z in Hb.
    assert (E : num_gt c 70 = false).
    { unfold num_gt. rewrite ltb_scaled by (assumption || reflexivity).
      change (scaled 70) with (70 * one_scaled)%Z. apply Z.ltb_ge. lia. }
    rewrite E. destruct (num_gt c 40); discriminate.
Qed.

(** * NaN *)

Section NaN.

Lemma is_nan_Prim2SF x : is_nan x = true -> Prim2SF x = S754_nan.
Proof. rewrite is_nan_spec. destruct (Prim2SF x); simpl; congruence. Qed.

Lemma is_nan_add_l a b : is_nan a = true -> is_nan (a + b) = true.
Proof.
  intros H. rewrite is_nan_spec, add_spec, (is_nan_Prim2SF a H). reflexivity.
Qed.

Lemma is_nan_add_r a b : is_nan b = true -> is_nan (a + b) = true.
Proof.
  intros H. rewrite is_nan_spec, add_spec, (is_nan_Prim2SF b H).
  destruct (Prim2SF a); reflexivity.
Qed.

Lemma is_nan_sub_l a b : is_nan a = true -> is_nan (a - b) = true.
Proof.
  intros H. rewrite is_nan_spec, sub_spec, (is_nan_Prim2SF a H). reflexivity.
Qed.

Lemma is_nan_sub_r a b : is_nan b = true -> is_nan (a - b) = true.
Proof.
  intros H. rewrite is_nan_spec, sub_spec, (is_nan_Prim2SF b H).
  destruct (Prim2SF a); reflexivity.
Qed.

Lemma is_nan_mul_l a b : is_nan a = true -> is_nan (a * b) = true.
Proof.
  intros H. rewrite is_nan_spec, mul_spec, (is_nan_Prim2SF a H). reflexivity.
Qed.

Lemma is_nan_div_l a b : is_nan a = true -> is_nan (a / b) = true.
Proof.
  intros H. rewrite is_nan_spec, div_spec, (is_nan_Prim2SF a H). reflexivity.
Qed.

Lemma is_nan_abs a : is_nan a = true -> is_nan (Math_abs a) = true.
Proof.
  intros H. unfold Math_abs. rewrite is_nan_spec, abs_spec, (is_nan_Prim2SF a H).
  reflexivity.
Qed.

(** Every comparison with NaN is false. *)
Lemma num_gt_nan a k : is_nan a = true -> num_gt a k = false.
Proof.
  intros H. unfold num_gt. rewrite ltb_spec, (is_nan_Prim2SF a H).
  unfold SFltb. destruct (Prim2SF k); reflexivity.
Qed.

Lemma sum_nan_acc (l : list float) :
  forall a, is_nan a = true -> is_nan (fold_left add l a) = true.
Proof.
  induction l as [|v l IH]; intros a H; simpl; [exact H|].
  apply IH, is_nan_add_l, H.
Qed.

Lemma sum_nan_elem (l : list float) :
  forall a, (exists v, In v l /\ is_nan v = true) -> is_nan (fold_left add l a) = true.
Proof.
  induction l as [|v l IH]; intros a [w [Hin Hw]]; simpl; [destruct Hin|].
  destruct Hin as [->|Hin].
  - apply sum_nan_acc, is_nan_add_r, Hw.
  - apply IH. exists w. split; assumption.
Qed.

Lemma squares_nan_acc (mean : float) (l : list float) :
  forall s, is_nan s = true ->
  is_nan (fold_left (fun sum val => sum + Math_pow2 (val - mean)) l s) = true.
Proof.
  induction l as [|v l IH]; intros s H; simpl; [exact H|].
  apply IH, is_nan_add_l, H.
Qed.

(** The variance of a non-empty array holding NaN (or [undefined]) is NaN. *)
Lemma calculateVariance_nan (values : list float) :
  (exists v, In v values /\ is_nan v = true) ->
  is_nan (calculateVariance values) = true.
Proof.
  intros [w [Hin Hw]]. destruct values as [|x rest]; [destruct Hin|].
  unfold calculateVariance.
  set (mean := fold_left add rest x / float_of_nat (length (x :: rest))).
  assert (Hm : is_nan mean = true).
  { subst mean. apply is_nan_div_l. destruct Hin as [->|Hin].
    - apply sum_nan_acc, Hw.
    - apply sum_nan_elem. exists w. split; assumption. }
  apply is_nan_div_l. simpl fold_left.
  apply squares_nan_acc, is_nan_add_r. unfold Math_pow2.
  apply is_nan_mul_l, is_nan_sub_r, Hm.
Qed.

(** [reduce] never sees an empty array in [calculateVariance]. *)
Lemma calculateVariance_never_throws (values : list float) :
  calculateVariance_exc values = Some (calculateVariance values).
Proof. destruct values; reflexivity. Qed.

Local Open Scope Z_scope.

Lemma aget_outside a i : outside a i -> is_nan (aget a i) = true.
Proof.
  unfold outside, aget. intros H.
  destruct (Z.ltb_spec i 0) as [|Hi]; [reflexivity|].
  rewrite nth_overflow by lia. reflexivity.
Qed.

Lemma for_range_0_4 : for_range 0 4 1 = [0; 1; 2; 3].
Proof. reflexivity. Qed.

Lemma boundary_sample_nan gray width oy ox i :
  0 <= i < 4 -> outside gray (oy * width + (ox + i)) ->
  is_nan (calculateVariance (boundary_sample gray width oy ox)) = true.
Proof.
  intros Hi Ho. apply calculateVariance_nan.
  exists (aget gray (oy * width + (ox + i))). split; [|apply aget_outside, Ho].
  unfold boundary_sample. rewrite for_range_0_4.
  apply (in_map (fun i => aget gray (oy * width + (ox + i)))). simpl. lia.
Qed.

Lemma inside_sample_nan gray width oy ox i :
  0 <= i < 4 -> outside gray ((oy + 2) * width + (ox + i)) ->
  is_nan (calculateVariance (inside_sample gray width oy ox)) = true.
Proof.
  intros Hi Ho. apply calculateVariance_nan.
  exists (aget gray ((oy + 2) * width + (ox + i))). split; [|apply aget_outside, Ho].
  unfold inside_sample. rewrite for_range_0_4.
  apply (in_map (fun i => aget gray ((oy + 2) * width + (ox + i)))). simpl. lia.
Qed.

Lemma boundary_jump_outside gray width oy ox i :
  0 <= i < 4 ->
  outside gray (oy * width + (ox + i)) \/ outside gray ((oy + 2) * width + (ox + i)) ->
  boundary_jump gray width oy ox = false.
Proof.
  intros Hi Ho. unfold boundary_jump. apply num_gt_nan, is_nan_abs.
  destruct Ho as [Ho|Ho].
  - apply is_nan_sub_l. eapply boundary_sample_nan; eauto.
  - apply is_nan_sub_r. eapply inside_sample_nan; eauto.
Qed.

End NaN.

(** * Images of a single colour *)

Section Uniform.

Local Open Scope Z_scope.








Variables (w h : nat) (r g b a : byte).

Let y := luma_of (byte_num r, byte_num g, byte_num b).
Let v := gray_of (byte_num r, byte_num g, byte_num b).







End Uniform.


(** * Correlation of a constant channel *)

Section ConstantChannel.




Variables (c meanY : float).
Hypothesis Hc : finite c.


End ConstantChannel.





(** ** Adding to a number that is at least 1 *)

Section Saturation.

Local Open Scope Z_scope.

Lemma shr_1_half mrs : 0 <= shr_m mrs -> shr_m (shr_1 mrs) = shr_m mrs / 2.
Proof.
  destruct mrs as [m r s]; cbn [shr_m shr_1].
  destruct m as [|p|p]; [reflexivity| |lia]. intros _.
  destruct p as [p|p|]; cbn [shr_m].
  - rewrite (Pos2Z.inj_xI p). apply (Z.div_unique _ _ _ 1); lia.
  - rewrite (Pos2Z.inj_xO p). apply (Z.div_unique _ _ _ 0); lia.
  - reflexivity.
Qed.

Lemma iter_pos_shr_1_div p :
  forall mrs, 0 <= shr_m mrs ->
  shr_m (iter_pos shr_1 p mrs) = shr_m mrs / 2 ^ Zpos p.
Proof.
  induction p as [p IH|p IH|]; intros mrs H; cbn [iter_pos].
  - rewrite IH by (apply iter_pos_shr_1_nonneg, shr_1_nonneg, H).
    rewrite IH by (apply shr_1_nonneg, H).
    rewrite shr_1_half by exact H.
    assert (0 < 2 ^ Zpos p) by (apply Z.pow_pos_nonneg; lia).
    rewrite !Z.div_div by lia.
    f_equal. rewrite (Pos2Z.inj_xI p).
    replace (2 * Zpos p + 1) with (1 + Zpos p + Zpos p) by lia.
    rewrite !Z.pow_add_r by lia. change (2 ^ 1) with 2. ring.
  - rewrite IH by (apply iter_pos_shr_1_nonneg, H).
    rewrite IH by exact H.
    assert (0 < 2 ^ Zpos p) by (apply Z.pow_pos_nonneg; lia).
    rewrite Z.div_div by lia.
    f_equal. rewrite (Pos2Z.inj_xO p).
    replace (2 * Zpos p) with (Zpos p + Zpos p) by lia.
    rewrite Z.pow_add_r by lia. reflexivity.
  - rewrite shr_1_half by exact H. reflexivity.
Qed.

Lemma Zdigits2_bounds m :
  0 < m -> 2 ^ (Zdigits2 m - 1) <= m < 2 ^ Zdigits2 m.
Proof.
  destruct m as [|p|p]; try lia. intros _. cbn [Zdigits2].
  split; [apply digits2_pos_lb | apply digits2_pos_ub].
Qed.

Lemma Zdigits2_pos m : 0 < m -> 0 < Zdigits2 m.
Proof. destruct m; simpl; lia. Qed.

Lemma Zdigits2_lower m k : 0 < m -> 0 <= k -> 2 ^ k <= m -> k < Zdigits2 m.
Proof.
  intros Hm Hk Hle. pose proof (Zdigits2_bounds m Hm) as [_ Hub].
  pose proof (Zdigits2_pos m Hm).
  apply (Z.pow_lt_mono_r_iff 2); lia.
Qed.

Lemma Zdigits2_mono a b : 0 < a -> a <= b -> Zdigits2 a <= Zdigits2 b.
Proof.
  intros Ha Hab. pose proof (Zdigits2_bounds a Ha) as [Hlb _].
  pose proof (Zdigits2_pos a Ha).
  assert (Zdigits2 a - 1 < Zdigits2 b) by (apply Zdigits2_lower; lia).
  lia.
Qed.

(** In the normal range, the right shift of rounding leaves a positive
    mantissa and does not go below the exponent of the leading digit. *)
Lemma shr_fexp_normal m e l E :
  0 < m -> -1074 <= E -> E <= Zdigits2 m + e - 53 ->
  0 < shr_m (fst (shr_fexp prec emax m e l))
  /\ E <= snd (shr_fexp prec emax m e l)
  /\ E <= Zdigits2 (shr_m (fst (shr_fexp prec emax m e l)))
          + snd (shr_fexp prec emax m e l) - 53.
Proof.
  intros Hm HE Hn. unfold shr_fexp, shr.
  pose proof (Zdigits2_bounds m Hm) as [Hlb Hub].
  pose proof (Zdigits2_pos m Hm) as Hd0.
  set (d := Zdigits2 m) in *.
  assert (Hf : fexp prec emax (d + e) = d + e - 53).
  { unfold fexp, SpecFloat.emin, prec, emax. lia. }
  rewrite Hf.
  assert (Hrec : shr_m (shr_record_of_loc m l) = m).
  { destruct l as [|[ | | ]]; reflexivity. }
  destruct (d + e - 53 - e) as [|q|q] eqn:En; cbn [fst snd].
  - rewrite Hrec. fold d. lia.
  - rewrite iter_pos_shr_1_div by (rewrite Hrec; lia). rewrite Hrec.
    assert (Hq : Zpos q = d - 53) by lia. rewrite Hq.
    assert (Hp2 : 0 < 2 ^ (d - 53)) by (apply Z.pow_pos_nonneg; lia).
    assert (Hge : 2 ^ 52 <= m / 2 ^ (d - 53)).
    { apply Z.div_le_lower_bound; [lia|].
      rewrite <- Z.pow_add_r by lia. replace (d - 53 + 52) with (d - 1) by lia.
      exact Hlb. }
    assert (Hpos : 0 < m / 2 ^ (d - 53)).
    { change (2 ^ 52) with 4503599627370496 in Hge. lia. }
    assert (52 < Zdigits2 (m / 2 ^ (d - 53))) by (apply Zdigits2_lower; lia).
    lia.
  - rewrite Hrec. fold d. lia.
Qed.

Lemma round_nearest_even_ge m l : m <= round_nearest_even m l.
Proof.
  destruct l as [|[ | | ]]; simpl; try lia. destruct (Z.even m); lia.
Qed.

(** Rounding a positive number of the normal range does not underflow, and
    the exponent of the result is at least that of the leading digit. *)
Lemma binary_round_aux_normal m e l E :
  0 < m -> -1074 <= E -> E <= Zdigits2 m + e - 53 ->
  binary_round_aux prec emax false m e l = S754_infinity false
  \/ exists m' e',
       binary_round_aux prec emax false m e l = S754_finite false m' e' /\ E <= e'.
Proof.
  intros Hm HE Hn. unfold binary_round_aux.
  pose proof (shr_fexp_normal m e l E Hm HE Hn) as (H1 & H2 & H3).
  destruct (shr_fexp prec emax m e l) as [mrs' e']. cbn [fst snd] in H1, H2, H3.
  set (m1 := round_nearest_even (shr_m mrs') (loc_of_shr_record mrs')).
  assert (Hge : shr_m mrs' <= m1) by apply round_nearest_even_ge.
  assert (Hm1 : 0 < m1) by lia.
  assert (Hn1 : E <= Zdigits2 m1 + e' - 53).
  { pose proof (Zdigits2_mono (shr_m mrs') m1 H1 Hge). lia. }
  pose proof (shr_fexp_normal m1 e' loc_Exact E Hm1 HE Hn1) as (K1 & K2 & _).
  destruct (shr_fexp prec emax m1 e' loc_Exact) as [mrs'' e''].
  cbn [fst snd] in K1, K2.
  destruct (shr_m mrs'') as [|p|p]; try lia.
  destruct (e'' <=? emax - prec); [right|left; reflexivity].
  exists p, e''. split; [reflexivity | exact K2].
Qed.

Lemma iter_xO m d : Zpos (Pos.iter xO m d) = Zpos m * 2 ^ Zpos d.
Proof.
  induction d as [|d IH] using Pos.peano_ind.
  - simpl. rewrite Pos2Z.inj_xO. change (2 ^ 1) with 2. lia.
  - rewrite Pos.iter_succ, Pos2Z.inj_xO, IH, Pos2Z.inj_succ, Z.pow_succ_r by lia. ring.
Qed.

(** Aligning a mantissa to a smaller exponent keeps the value. *)
Lemma shl_align_value m e e' :
  let '(m', e'') := shl_align m e e' in
  e'' <= e /\ Zpos m' = Zpos m * 2 ^ (e - e'').
Proof.
  unfold shl_align. destruct (e' - e) as [|d|d] eqn:E.
  - rewrite Z.sub_diag. split; [lia|]. change (2 ^ 0) with 1. lia.
  - rewrite Z.sub_diag. split; [lia|]. change (2 ^ 0) with 1. lia.
  - split; [lia|]. rewrite iter_xO. f_equal. f_equal. lia.
Qed.

Lemma shl_align_le m e e' :
  e' <= e ->
  snd (shl_align m e e') = e'
  /\ Zpos (fst (shl_align m e e')) = Zpos m * 2 ^ (e - e').
Proof.
  intros H. unfold shl_align. destruct (e' - e) as [|d|d] eqn:E; cbn [fst snd]; try lia.
  - assert (e' = e) by lia. subst e'. rewrite Z.sub_diag. change (2 ^ 0) with 1. lia.
  - split; [reflexivity|]. rewrite iter_xO. f_equal. f_equal. lia.
Qed.

(** The sum of two positive finite numbers, the first of them normal, is
    [+Infinity] or a positive number whose exponent is at least that of the
    first. *)
Lemma SFadd_exponent mx ex my ey :
  2 ^ 52 <= Zpos mx -> -1074 <= ex ->
  SF64add (S754_finite false mx ex) (S754_finite false my ey) = S754_infinity false
  \/ exists m e,
       SF64add (S754_finite false mx ex) (S754_finite false my ey)
       = S754_finite false m e /\ ex <= e.
Proof.
  intros Hmx Hex. unfold SF64add, SFadd, cond_Zopp.
  set (ez := Z.min ex ey).
  destruct (shl_align_le mx ex ez ltac:(lia)) as [_ Ha].
  set (a := fst (shl_align mx ex ez)) in *.
  set (b := fst (shl_align my ey ez)).
  change (Zpos a + Zpos b) with (Zpos (a + b)).
  unfold binary_normalize, binary_round.
  pose proof (shl_align_value (a + b) ez
                (fexp prec emax (Zpos (digits2_pos (a + b)) + ez))) as Hs.
  destruct (shl_align (a + b) ez _) as [mz ez']. destruct Hs as [Hle Hmz].
  apply binary_round_aux_normal; [lia | exact Hex |].
  assert (Hp1 : 0 < 2 ^ (ex - ez)) by (apply Z.pow_pos_nonneg; lia).
  assert (Hp2 : 0 < 2 ^ (ez - ez')) by (apply Z.pow_pos_nonneg; lia).
  assert (Hlow : 2 ^ (52 + (ex - ez) + (ez - ez')) <= Zpos mz).
  { rewrite !Z.pow_add_r by lia. rewrite Hmz, Pos2Z.inj_add, Ha.
    assert (H1 : 2 ^ 52 * 2 ^ (ex - ez) <= Zpos mx * 2 ^ (ex - ez))
      by (apply Z.mul_le_mono_nonneg_r; lia).
    apply Z.mul_le_mono_nonneg_r; lia. }
  assert (52 + (ex - ez) + (ez - ez') < Zdigits2 (Zpos mz))
    by (apply Zdigits2_lower; lia).
  lia.
Qed.

End Saturation.

(** Adding a positive finite number to a number that is at least 1 gives a
    number that is at least 1: a running total that has reached 1 stays
    there. *)
Lemma add_keeps_ge_one (x y : float) :
  (1 <=? x) = true -> posfin y -> (1 <=? x + y) = true.
Proof.
  unfold posfin. intros Hx Hy.
  pose proof (Prim2SF_valid x) as Vx. pose proof (Prim2SF_valid (x + y)) as Vr.
  rewrite leb_spec in Hx |- *. rewrite add_spec in Vr |- *.
  change (Prim2SF 1) with (S754_finite false 4503599627370496 (-52)) in *.
  destruct (Prim2SF y) as [| | |sy my ey]; try discriminate.
  destruct sy; try discriminate.
  destruct (Prim2SF x) as [sx|sx| |sx mx ex]; try discriminate.
  - destruct sx; [discriminate | reflexivity].
  - destruct sx; [discriminate|].
    cbn [valid_binary] in Vx.
    destruct (bounded_canonical _ _ Vx) as (He & _ & Hn).
    assert (Hex : (-52 <= ex)%Z).
    { unfold SFleb, SFcompare in Hx.
      destruct (Z.compare_spec (-52) ex); try lia; discriminate. }
    destruct (SFadd_exponent mx ex my ey ltac:(apply Hn; lia) He)
      as [E|(m & e & E & Hle)]; rewrite E in Vr |- *; [reflexivity|].
    cbn [valid_binary] in Vr.
    destruct (bounded_canonical _ _ Vr) as (_ & _ & Hm).
    assert (Hm52 : (2 ^ 52 <= Zpos m)%Z) by (apply Hm; lia).
    unfold SFleb, SFcompare.
    destruct (Z.compare_spec (-52) e) as [Ee|Ee|Ee]; try reflexivity; try lia.
    change (Pos.compare_cont Eq 4503599627370496 m)
      with (Zpos 4503599627370496 ?= Zpos m)%Z.
    change (2 ^ 52)%Z with 4503599627370496%Z in Hm52.
    destruct (Z.compare_spec 4503599627370496 (Zpos m)); try reflexivity; lia.
Qed.

(** ** Saturating totals *)

Lemma fold_left_count {A S : Type} (f : S -> A -> S) (test : A -> bool) (g : S -> S)
    (l : list A) :
  (forall s a, f s a = if test a then g s else s) ->
  forall s, fold_left f l s = Nat.iter (length (filter test l)) g s.
Proof.
  intros Hf. induction l as [|a l IH]; intros s; simpl; [reflexivity|].
  rewrite IH, Hf. destruct (test a); [|reflexivity].
  simpl. clear. induction (length (filter test l)) as [|n IHn]; simpl; [reflexivity|].
  rewrite IHn. reflexivity.
Qed.

Lemma leb_not_ltb a b : (a <=? b) = true -> (b <? a) = false.
Proof.
  rewrite leb_spec, ltb_spec. unfold SFleb, SFltb.
  rewrite (SFcompare_antisym (Prim2SF a) (Prim2SF b)).
  destruct (SFcompare (Prim2SF a) (Prim2SF b)) as [[ | | ]|]; simpl; congruence.
Qed.

Lemma leb_not_nan_r a b : (a <=? b) = true -> is_nan b = false.
Proof.
  rewrite leb_spec, is_nan_spec. unfold SFleb.
  destruct (Prim2SF a), (Prim2SF b); simpl; congruence.
Qed.

Lemma SFcompare_Eq_finite m e y :
  SFcompare (S754_finite false m e) y = Some Eq -> y = S754_finite false m e.
Proof.
  destruct y as [s|s| |s m' e']; simpl; try discriminate; try (destruct s; discriminate).
  destruct s; try discriminate.
  destruct (Z.compare_spec e e') as [E|E|E]; try discriminate.
  intros H. injection H as H. apply Pos.compare_eq in H. subst. reflexivity.
Qed.

Lemma block_not_anomalous (block : list float) :
  (0.01 <=? calculateVariance block) = true ->
  (checkPeriodicity block <=? 0.7) = true ->
  block_anomalous block = false.
Proof.
  unfold block_anomalous, num_lt, num_gt.
  generalize (calculateVariance block) (checkPeriodicity block). intros v p Hv Hp.
  rewrite (leb_not_ltb _ _ Hv), (leb_not_ltb _ _ Hp). reflexivity.
Qed.

Lemma region_not_smooth (region : list float) :
  (0.01 <=? calculateVariance region) = true -> region_smooth region = false.
Proof.
  unfold region_smooth, num_lt.
  generalize (float_of_nat (countEdges region regionSize)) (calculateVariance region).
  intros e v Hv.
  rewrite (leb_not_ltb _ _ Hv). reflexivity.
Qed.

(** [Math.min(1, s)] is 1 once the total [s] has reached 1. *)
Lemma Math_min_one_saturated s : (1 <=? s) = true -> Math_min 1 s = 1.
Proof.
  intros H. unfold Math_min.
  rewrite (leb_not_nan_r 1 s H), (leb_not_ltb 1 s H).
  change (is_nan 1) with false. cbn [orb].
  destruct (1 <? s) eqn:E; [reflexivity|].
  change (get_sign 1) with false. cbv iota.
  apply Prim2SF_inj. rewrite leb_spec in H. rewrite ltb_spec in E.
  unfold SFleb, SFltb in *.
  change (Prim2SF 1) with (S754_finite false 4503599627370496 (-52)) in *.
  apply SFcompare_Eq_finite.
  destruct (SFcompare _ (Prim2SF s)) as [[ | | ]|]; congruence.
Qed.

(** Twenty increments of 0.05 reach 1, and the total stays there. *)
Lemma artifact_total_saturates j :
  (20 <= j)%nat -> (1 <=? Nat.iter j (fun s => s + 0.05) 0) = true.
Proof.
  induction 1 as [|j Hj IH].
  - vm_compute. reflexivity.
  - cbn [Nat.iter]. apply add_keeps_ge_one; [exact IH | reflexivity].
Qed.

Lemma compression_levels_complete j :
  In (Math_min 1 (Nat.iter j (fun s => s + 0.05) 0)) compression_levels.
Proof.
  unfold compression_levels.
  destruct (Nat.le_gt_cases 20 j) as [H|H].
  - rewrite (Math_min_one_saturated _ (artifact_total_saturates j H)).
    apply in_map_iff. exists 20%nat.
    split; [vm_compute; reflexivity | apply in_seq; lia].
  - apply (in_map (fun j => Math_min 1 (Nat.iter j (fun s => s + 0.05) 0))).
    apply in_seq. lia.
Qed.

(** The compression score takes one of 21 values. *)
Lemma detectCompressionArtifacts_levels pixels width height :
  In (detectCompressionArtifacts pixels width height) compression_levels.
Proof.
  unfold detectCompressionArtifacts, compression_total.
  rewrite (fold_left_count _
             (fun '(oy, ox) => boundary_jump (gray_array pixels) width oy ox)
             (fun s => s + 0.05)).
  - apply compression_levels_complete.
  - intros s [oy ox]. reflexivity.
Qed.

(** Without a smooth region the texture score is the 0.2 of consistent
    regions, or 0. *)
Lemma texture_without_smooth_region pixels width height :
  (forall oy ox, In (oy, ox) (texture_regions width height) ->
     region_smooth (window (gray_array pixels) width oy ox regionSize) = false) ->
  In (analyzeTextureConsistency pixels width height) [0; 0.2].
Proof.
  intros H. unfold analyzeTextureConsistency.
  assert (Hs : fst (texture_scan (gray_array pixels) width height) = 0).
  { unfold texture_scan.
    apply (fold_left_invariant (fun st => fst st = 0)); [reflexivity|].
    intros [s regions] [oy ox] Hin Hs. cbn [fst] in *.
    rewrite (H oy ox Hin). exact Hs. }
  destruct (texture_scan _ _ _) as [s regions]. cbn [fst] in Hs. subst s.
  destruct (num_lt _ _); [right; left|left]; reflexivity.
Qed.

Lemma detectColorAnomalies_levels pixels :
  In (detectColorAnomalies pixels) [0; 0.2; 0.3; 0.5].
Proof.
  unfold detectColorAnomalies.
  destruct (color_score_values
              (calculateCorrelation (rValues pixels) (gValues pixels))
              (calculateCorrelation (rValues pixels) (bValues pixels))
              (calculateCorrelation (gValues pixels) (bValues pixels)))
    as [H|[H|[H|H]]]; rewrite H; simpl; auto.
Qed.

Lemma quiet_scores_checked :
  forallb (fun c =>
    forallb (fun t =>
      forallb (fun k => quiet_result_ok (combine_scores 0 c t k)) [0; 0.2; 0.3; 0.5])
      [0; 0.2])
    compression_levels = true.
Proof. vm_compute. reflexivity. Qed.

(** With a frequency score of 0 and no smooth region, the result is low risk
    and not fake whatever the boundaries and the colours do. *)
Lemma quiet_scores_low c t k :
  In c compression_levels -> In t [0; 0.2] -> In k [0; 0.2; 0.3; 0.5] ->
  riskLevel (combine_scores 0 c t k) = low /\ isFake (combine_scores 0 c t k) = false.
Proof.
  intros Hc Ht Hk.
  pose proof quiet_scores_checked as H.
  rewrite forallb_forall in H. specialize (H c Hc).
  rewrite forallb_forall in H. specialize (H t Ht).
  rewrite forallb_forall in H. specialize (H k Hk).
  unfold quiet_result_ok in H.
  destruct (riskLevel (combine_scores 0 c t k)); try discriminate.
  destruct (isFake (combine_scores 0 c t k)); try discriminate.
  split; reflexivity.
Qed.

(** The test [block_is_noisy] decides the hypothesis on the blocks of a noise
    image. *)
Lemma noisy_blocks_spec (pixels : PixelBuffer) (width : Z) (origins : list (Z * Z)) :
  forallb (block_is_noisy pixels width) origins = true ->
  forall oy ox, In (oy, ox) origins ->
    let block := window (luma_array pixels) width oy ox blockSize in
    (0.01 <=? calculateVariance block) = true
    /\ (checkPeriodicity block <=? 0.7) = true.
Proof.
  intros H oy ox Hin. rewrite forallb_forall in H. specialize (H (oy, ox) Hin).
  unfold block_is_noisy in H. cbn [fst snd] in H.
  apply andb_true_iff in H. exact H.
Qed.

(** * The score combiner *)

(** C5: for every pixel buffer and every canvas size, each of the four
    analyzer scores lies in [[0, 1]] and the confidence lies in [[0, 100]],
    before and after [Math.round]; none of them is NaN or negative, whatever
    checks fire. *)
Theorem scores_and_confidence_bounded (pixels : PixelBuffer) (width height : Z) :
  in_range 0 1 (analyzeFrequencyDomain pixels width height)
  /\ in_range 0 1 (detectCompressionArtifacts pixels width height)
  /\ in_range 0 1 (analyzeTextureConsistency pixels width height)
  /\ in_range 0 1 (detectColorAnomalies pixels)
  /\ in_range 0 100 (raw_confidence pixels width height)
  /\ in_range 0 100 (confidence (analyzeImageForDeepfake pixels width height)).
Proof.
  repeat split;
    try apply analyzeFrequencyDomain_range;
    try apply detectCompressionArtifacts_range;
    try apply analyzeTextureConsistency_range;
    try apply detectColorAnomalies_range;
    try apply raw_confidence_range;
    apply (Math_round_range (raw_confidence pixels width height)),
          raw_confidence_range.
Qed.


Lemma analyze_unfold pixels width height :
  let c := raw_confidence pixels width height in
  let r := analyzeImageForDeepfake pixels width height in
  isFake r = num_gt c 50 /\ confidence r = Math_round c /\ riskLevel r = risk_of c.
Proof. repeat split. Qed.

(** C3, as the code has it: the risk level is decided by the confidence
    before rounding ([> 70] high, [> 40] medium, else low) and the confidence
    field is that value rounded.  Hence a field above 70 means high, a field
    between 40 and 70 (both excluded) means medium and a field below 40 means
    low, while a field of exactly 70 leaves medium or high and a field of
    exactly 40 leaves low or medium. *)
Theorem risk_level_follows_unrounded_confidence (pixels : PixelBuffer) (width height : Z) :
  let c := raw_confidence pixels width height in
  let r := analyzeImageForDeepfake pixels width height in
  confidence r = Math_round c
  /\ riskLevel r = (if num_gt c 70 then high else if num_gt c 40 then medium else low)
  /\ (num_gt (confidence r) 70 = true -> riskLevel r = high)
  /\ (num_gt (confidence r) 40 = true -> num_lt (confidence r) 70 = true ->
      riskLevel r = medium)
  /\ (num_lt (confidence r) 40 = true -> riskLevel r = low)
  /\ (confidence r = 70 -> riskLevel r <> low)
  /\ (confidence r = 40 -> riskLevel r <> high).
Proof.
  intros c r.
  destruct (analyze_unfold pixels width height) as (_ & Hc & Hr).
  fold c r in Hc, Hr. rewrite Hc, Hr.
  split; [reflexivity|]. split; [reflexivity|].
  apply risk_of_rounded, raw_confidence_range.
Qed.

(** C4, as the code has it: [isFake] is the test [> 50] on the confidence
    before rounding.  Hence a confidence field above 50 means [isFake] and a
    field below 50 means not [isFake]; a field of exactly 50 leaves both. *)
Theorem isFake_follows_unrounded_confidence (pixels : PixelBuffer) (width height : Z) :
  let c := raw_confidence pixels width height in
  let r := analyzeImageForDeepfake pixels width height in
  isFake r = num_gt c 50
  /\ (num_gt (confidence r) 50 = true -> isFake r = true)
  /\ (num_lt (confidence r) 50 = true -> isFake r = false).
Proof.
  intros c r.
  destruct (analyze_unfold pixels width height) as (Hf & Hc & _).
  fold c r in Hc, Hf. rewrite Hc, Hf.
  assert (H50 : In 50 [40; 50; 70]) by (simpl; auto).
  pose proof (raw_confidence_range pixels width height) as Hr. fold c in Hr.
  repeat split.
  - apply (round_above_threshold c Hr 50 H50).
  - apply (round_below_threshold c Hr 50 H50).
Qed.

(** A 48×40 image of white dots on black with confidence 40.25: the field
    is 40 and the risk level is medium. *)
Lemma confidence_40_with_medium_risk :
  let r := analyzeImageForDeepfake (render 48 40 dotted_but_last) 48 40 in
  raw_confidence (render 48 40 dotted_but_last) 48 40 = 40.250000000000007
  /\ confidence r = 40 /\ riskLevel r = medium /\ riskLevel r <> low.
Proof. vm_compute. repeat split. discriminate. Qed.

Lemma risk_level_follows_unrounded_confidence_witness :
  riskLevel (analyzeImageForDeepfake (render 48 40 dotted_but_last) 48 40) <> high
  /\ riskLevel (analyzeImageForDeepfake (uniform_image 16 16 x80 x80 x80 xff) 16 16) = low.
Proof.
  split.
  - apply (risk_level_follows_unrounded_confidence (render 48 40 dotted_but_last) 48 40).
    vm_compute. reflexivity.
  - apply (risk_level_follows_unrounded_confidence (uniform_image 16 16 x80 x80 x80 xff) 16 16).
    vm_compute. reflexivity.
Defined.

(** An 80×48 image of white dots on black with confidence 50.25: the field
    is 50, not above 50, and [isFake] is true. *)
Lemma isFake_with_confidence_50 :
  let r := analyzeImageForDeepfake (render 80 48 dotted) 80 48 in
  raw_confidence (render 80 48 dotted) 80 48 = 50.249999999999993
  /\ confidence r = 50 /\ num_gt (confidence r) 50 = false /\ isFake r = true.
Proof. vm_compute. repeat split. Qed.

Lemma isFake_follows_unrounded_confidence_witness :
  isFake (analyzeImageForDeepfake (uniform_image 16 16 x80 x80 x80 xff) 16 16) = false.
Proof.
  apply (isFake_follows_unrounded_confidence (uniform_image 16 16 x80 x80 x80 xff) 16 16).
  vm_compute. reflexivity.
Defined.

(** * Degenerate and small images *)

Section ZeroArea.

Local Open Scope Z_scope.





End ZeroArea.




(** * The Compression-Boundary analyzer *)

(** C9: the Compression-Boundary analyzer is total for every buffer and
    every canvas size: [reduce] never throws on its 4-value samples, a
    boundary one of whose sampled indices falls outside the luma array has a
    NaN variance difference, fails the [> 0.05] test and leaves the running
    total unchanged, and the score is in [[0, 1]]. *)
Theorem compression_scan_is_total_and_bounded (pixels : PixelBuffer) (width height : Z) :
  let gray := gray_array pixels in
  in_range 0 1 (detectCompressionArtifacts pixels width height)
  /\ (forall oy ox,
        calculateVariance_exc (boundary_sample gray width oy ox)
        = Some (calculateVariance (boundary_sample gray width oy ox))
        /\ calculateVariance_exc (inside_sample gray width oy ox)
           = Some (calculateVariance (inside_sample gray width oy ox)))
  /\ (forall oy ox i,
        (0 <= i < 4)%Z ->
        outside gray (oy * width + (ox + i))
        \/ outside gray ((oy + 2) * width + (ox + i)) ->
        is_nan (Math_abs (calculateVariance (boundary_sample gray width oy ox)
                          - calculateVariance (inside_sample gray width oy ox))) = true
        /\ boundary_jump gray width oy ox = false
        /\ forall artifactScore,
             (if boundary_jump gray width oy ox
              then artifactScore + 0.05 else artifactScore) = artifactScore).
Proof.
  intros gray. split; [apply detectCompressionArtifacts_range|]. split.
  - intros oy ox. split; apply calculateVariance_never_throws.
  - intros oy ox i Hi Ho.
    pose proof (boundary_jump_outside gray width oy ox i Hi Ho) as Hj.
    split; [|split; [exact Hj | intros s; rewrite Hj; reflexivity]].
    apply is_nan_abs. destruct Ho as [Ho|Ho].
    + apply is_nan_sub_l. eapply boundary_sample_nan; eauto.
    + apply is_nan_sub_r. eapply inside_sample_nan; eauto.
Qed.

(** On a 9×9 image the only boundary, at row 8 and column 8, reads past the
    end of the array: it does not count. *)
Lemma compression_scan_is_total_and_bounded_witness :
  boundary_jump (gray_array (uniform_image 9 9 x80 x80 x80 xff)) 9 8 8 = false.
Proof.
  destruct (compression_scan_is_total_and_bounded (uniform_image 9 9 x80 x80 x80 xff) 9 9)
    as (_ & _ & H).
  apply (H 8%Z 8%Z 1%Z).
  - lia.
  - left. unfold outside. right. vm_compute. discriminate.
Defined.

(** * The Frequency-Pattern analyzer *)

Section FrequencyBlocks.

Local Open Scope Z_scope.

Lemma trip_count_multiple start n step :
  0 < step -> 0 <= n ->
  trip_count start (start + step * n) step = Z.to_nat n.
Proof.
  intros Hs Hn. unfold trip_count. f_equal.
  replace (start + step * n - start + step - 1) with (n * step + (step - 1)) by lia.
  rewrite Z.div_add_l by lia. rewrite Z.div_small by lia. lia.
Qed.

(** On a canvas of [8a]×[8b] pixels the scan visits [(a-1)(b-1)] blocks: the
    blocks of the last block row and of the last block column are skipped
    although they are complete. *)
Lemma frequency_blocks_count a b :
  1 <= a -> 1 <= b ->
  length (frequency_blocks (8 * a) (8 * b)) = Z.to_nat ((a - 1) * (b - 1)).
Proof.
  intros Ha Hb. unfold frequency_blocks, blockSize.
  rewrite grid_length by lia.
  replace (8 * b - 8) with (0 + 8 * (b - 1)) by lia.
  replace (8 * a - 8) with (0 + 8 * (a - 1)) by lia.
  rewrite !trip_count_multiple by lia.
  rewrite <- Z2Nat.inj_mul by lia. f_equal. lia.
Qed.

End FrequencyBlocks.

(** C6 at a 16×16 image of one colour: the scan visits the single block at
    the origin, not the [(16/8)·(16/8) = 4] blocks of the partition, and the
    score is that of one smooth block, [min (1, 0.1 / 10)]. *)
Theorem frequency_scan_of_16x16_visits_one_block :
  frequency_blocks 16 16 = [(0, 0)%Z]
  /\ length (frequency_blocks 16 16) <> Z.to_nat ((16 / 8) * (16 / 8))
  /\ analyzeFrequencyDomain (uniform_image 16 16 x80 x80 x80 xff) 16 16
     = Math_min 1 (0.1 / 10)
  /\ Math_min 1 ((0.1 + 0.1 + 0.1 + 0.1) / 10)
     <> analyzeFrequencyDomain (uniform_image 16 16 x80 x80 x80 xff) 16 16.
Proof.
  split; [reflexivity|]. split; [vm_compute; discriminate|].
  split; [vm_compute; reflexivity|].
  intros H. apply (f_equal Prim2SF) in H. vm_compute in H. discriminate.
Qed.



(** * The Color-Correlation analyzer *)




(** * Noise *)

(** C8: for every image in which each sampled 8×8 luma block has a variance
    of at least 0.01 and a periodicity score of at most 0.7, the
    Frequency-Pattern score is exactly 0; if moreover each sampled 64×64
    region has a variance of at least 0.01, as high-variance noise has, the
    risk level is low and the image is not reported as fake. *)
Theorem noise_frequency_zero_and_low_risk (pixels : PixelBuffer) (width height : Z) :
  (forall oy ox, In (oy, ox) (frequency_blocks width height) ->
     let block := window (luma_array pixels) width oy ox blockSize in
     (0.01 <=? calculateVariance block) = true
     /\ (checkPeriodicity block <=? 0.7) = true) ->
  analyzeFrequencyDomain pixels width height = 0
  /\ ((forall oy ox, In (oy, ox) (texture_regions width height) ->
         (0.01 <=? calculateVariance
                     (window (gray_array pixels) width oy ox regionSize)) = true) ->
      riskLevel (analyzeImageForDeepfake pixels width height) = low
      /\ isFake (analyzeImageForDeepfake pixels width height) = false).
Proof.
  intros Hblocks.
  assert (Hf : analyzeFrequencyDomain pixels width height = 0).
  { unfold analyzeFrequencyDomain, frequency_total.
    rewrite fold_left_idle; [reflexivity|].
    intros s [oy ox] Hin. destruct (Hblocks oy ox Hin) as [Hv Hp].
    rewrite (block_not_anomalous _ Hv Hp). reflexivity. }
  split; [exact Hf|]. intros Hregions.
  unfold analyzeImageForDeepfake. rewrite Hf.
  apply quiet_scores_low.
  - apply detectCompressionArtifacts_levels.
  - apply texture_without_smooth_region. intros oy ox Hin.
    apply region_not_smooth, Hregions, Hin.
  - apply detectColorAnomalies_levels.
Qed.

(** A 72×72 image of pseudo-random noise: 64 blocks and one region. *)
Lemma noise_frequency_zero_and_low_risk_witness :
  analyzeFrequencyDomain (noise_image 72 72) 72 72 = 0
  /\ riskLevel (analyzeImageForDeepfake (noise_image 72 72) 72 72) = low
  /\ isFake (analyzeImageForDeepfake (noise_image 72 72) 72 72) = false.
Proof.
  assert (Hb : forallb (block_is_noisy (noise_image 72 72) 72) (frequency_blocks 72 72)
               = true) by (vm_compute; reflexivity).
  destruct (noise_frequency_zero_and_low_risk (noise_image 72 72) 72 72
              (noisy_blocks_spec _ _ _ Hb)) as [Hf Hlow].
  split; [exact Hf|]. apply Hlow.
  intros oy ox Hin. vm_compute in Hin.
  destruct Hin as [Hin|[]]. injection Hin as <- <-.
  vm_compute. reflexivity.
Defined.
